(** * MRG32k3a with streams, substreams and subsubstreams

    A shallow embedding of [simopt/rng/mrg32k3a.py]: the combined
    multiple-recursive generator of L'Ecuyer, its core step function, the
    [MRG32k3a] generator object and the free functions that move it through
    the stream / substream / subsubstream hierarchy.

    Python integers are unbounded and are modelled by [Z].  Python floats are
    IEEE-754 binary64 numbers; every finite one is a rational, so a float is
    modelled by the rational [Q] it denotes and every float operation by the
    exact rational result rounded to nearest-even at 53 bits.  Exceptions are
    modelled by an outcome type, and the generator object, which the Python
    code mutates in place, by a record threaded through a state-and-exception
    monad. *)

From Stdlib Require Import ZArith QArith Qabs Qround Qpower Lqa Lia List Bool.
From Stdlib Require Import SpecFloat.
Import ListNotations.

Local Open Scope Z_scope.

(** ** Binary64 arithmetic *)

Module Float.

Local Open Scope Q_scope.

(** [floor_log2 q] is the integer [l] with [2^l <= q < 2^(l+1)], for
    [q > 0]. *)
Definition floor_log2 (q : Q) : Z :=
  let l := (Z.log2 (Qnum q) - Z.log2 (QDen q))%Z in
  if Qle_bool (2 ^ l) q then l else (l - 1)%Z.

(** Nearest integer, ties to the even one. *)
Definition round_half_even (t : Q) : Z :=
  let f := Qfloor t in
  match Qcompare (t - inject_Z f) (1 # 2) with
  | Lt => f
  | Gt => (f + 1)%Z
  | Eq => if Z.even f then f else (f + 1)%Z
  end.

(** Round a positive rational to 53 significant bits. *)
Definition round53_pos (q : Q) : Q :=
  let e := (floor_log2 q - 52)%Z in
  inject_Z (round_half_even (q * 2 ^ (- e))) * 2 ^ e.

(** Round-to-nearest-even at precision 53 with an unbounded exponent. *)
Definition round53 (q : Q) : Q :=
  match Qnum q with
  | Z0 => 0
  | Zpos _ => round53_pos q
  | Zneg _ => - round53_pos (- q)
  end.

(** Rationals that are binary64 significands scaled by a power of two. *)
Definition representable (x : Q) : Prop :=
  exists M E : Z, (Z.abs M < 2 ^ 53)%Z /\ x == inject_Z M * 2 ^ E.

(** The first power of two beyond the largest finite binary64 number. *)
Definition overflow_threshold : Q := 2 ^ 1024.

Definition overflows (x : Q) : bool :=
  Qle_bool overflow_threshold x || Qle_bool x (- overflow_threshold).

(** [int(x)] for a float [x]: truncation toward zero. *)
Definition trunc (x : Q) : Z := Z.quot (Qnum x) (QDen x).

End Float.

(** The rational denoted by a finite float of the library's IEEE-754
    specification, and the binary64 float nearest to an integer there;
    used to compare [Float.round53] with that specification. *)
Definition SF2Q (x : spec_float) : Q :=
  match x with
  | S754_finite s m e =>
      ((if s then - inject_Z (Zpos m) else inject_Z (Zpos m)) * 2 ^ e)%Q
  | _ => 0%Q
  end.

Definition SF_of_Z (z : Z) : spec_float := binary_normalize 53 1024 z 0 false.

(** ** Exceptions *)

(** The exceptions that the modelled code can raise. *)
Inductive exn : Set :=
| AssertionError
| IndexError
| ZeroDivisionError
| OverflowError.

Inductive outcome (A : Type) : Type :=
| Return (a : A)
| Raise (e : exn).

Arguments Return {A} a.
Arguments Raise {A} e.

Definition obind {A B : Type} (c : outcome A) (k : A -> outcome B) : outcome B :=
  match c with
  | Return a => k a
  | Raise e => Raise e
  end.

Declare Scope outcome_scope.
Delimit Scope outcome_scope with outcome.
Notation "x <- c ;; k" := (obind c (fun x => k))
  (at level 61, c at next level, right associativity) : outcome_scope.

(** ** Python primitives *)

(** [s[i]] for a tuple or list [s] and a non-negative literal index. *)
Definition getitem (s : list Z) (i : nat) : outcome Z :=
  match nth_error s i with
  | Some x => Return x
  | None => Raise IndexError
  end.

(** [s[lo:hi]] for [0 <= lo <= hi]: slicing never raises, it clips. *)
Definition slice (lo hi : nat) (s : list Z) : list Z :=
  firstn (hi - lo) (skipn lo s).

(** [a / b] on integers: the exact quotient correctly rounded to a float.
    The divisors in the code are [mrgm1] and [mrgm2], so a nonzero quotient
    is at least [2^-32] in magnitude and never subnormal; a quotient beyond
    the largest float raises. *)
Definition int_truediv (a b : Z) : outcome Q :=
  if b =? 0 then Raise ZeroDivisionError
  else
    let r := Float.round53 (inject_Z a / inject_Z b) in
    if Float.overflows r then Raise OverflowError else Return r.

(** [float(n)]: the conversion applied to an integer operand that meets a
    float. *)
Definition float_of_int (n : Z) : outcome Q :=
  let r := Float.round53 (inject_Z n) in
  if Float.overflows r then Raise OverflowError else Return r.

(** [n * y] for an integer [n] and a float [y]: the integer is converted
    and the floats are multiplied.  The code multiplies by [mrgnorm] only,
    for which [2^-33 < y < 1]: [float(n)] being zero or at least one in
    magnitude and finite, the product neither overflows nor falls into the
    subnormal range, so rounding with an unbounded exponent is exact
    binary64 multiplication here. *)
Definition int_mul_float (n : Z) (y : Q) : outcome Q :=
  (x <- float_of_int n ;;
   Return (Float.round53 (x * y)))%outcome.

(** ** Constants *)

(** The literal [2.328306549295727688e-10] denotes the nearest float. *)
Definition mrgnorm : Q :=
  Float.round53 (2328306549295727688 # 10000000000000000000000000000).
Definition mrgm1 : Z := 4294967087.
Definition mrgm2 : Z := 4294944443.
Definition mrga12 : Z := 1403580.
Definition mrga13n : Z := 810728.
Definition mrga21 : Z := 527612.
Definition mrga23n : Z := 1370589.

Definition A1p0 : list (list Z) :=
  [[0; 1; 0];
   [0; 0; 1];
   [- mrga13n; mrga12; 0]].

Definition A2p0 : list (list Z) :=
  [[0; 1; 0];
   [0; 0; 1];
   [- mrga23n; 0; mrga21]].

Definition A1p47 : list (list Z) :=
  [[1362557480; 3230022138; 4278720212];
   [3427386258; 3848976950; 3230022138];
   [2109817045; 2441486578; 3848976950]].

Definition A2p47 : list (list Z) :=
  [[2920112852; 1965329198; 1177141043];
   [2135250851; 2920112852; 969184056];
   [296035385; 2135250851; 4267827987]].

Definition A1p94 : list (list Z) :=
  [[2873769531; 2081104178; 596284397];
   [4153800443; 1261269623; 2081104178];
   [3967600061; 1830023157; 1261269623]].

Definition A2p94 : list (list Z) :=
  [[1347291439; 2050427676; 736113023];
   [4102191254; 1347291439; 878627148];
   [1293500383; 4102191254; 745646810]].

Definition A1p141 : list (list Z) :=
  [[3230096243; 2131723358; 3262178024];
   [2882890127; 4088518247; 2131723358];
   [3991553306; 1282224087; 4088518247]].

Definition A2p141 : list (list Z) :=
  [[2196438580; 805386227; 4266375092];
   [4124675351; 2196438580; 2527961345];
   [94452540; 4124675351; 2825656399]].

(** ** The core step function *)

(** Lines 108-111 and 114-117 of the source: the quotient [k = int(p/m)],
    and [p - k*m] moved into [[0, m)] when it is negative. *)
Definition reduce (p m : Z) : outcome (Z * Z) :=
  (q <- int_truediv p m ;;
   let k := Float.trunc q in
   let p := p - k * m in
   Return (k, if p <? 0 then p + m else p))%outcome.

Definition mrg32k3a (state : list Z) : outcome (list Z * Q) :=
  (s1 <- getitem state 1 ;;
   s0 <- getitem state 0 ;;
   kp1 <- reduce (mrga12 * s1 - mrga13n * s0) mrgm1 ;;
   let p1 := snd kp1 in
   s5 <- getitem state 5 ;;
   s3 <- getitem state 3 ;;
   kp2 <- reduce (mrga21 * s5 - mrga23n * s3) mrgm2 ;;
   let p2 := snd kp2 in
   u <- (if p1 <=? p2
         then int_mul_float (p1 - p2 + mrgm1) mrgnorm
         else int_mul_float (p1 - p2) mrgnorm) ;;
   s2 <- getitem state 2 ;;
   s4 <- getitem state 4 ;;
   Return ([s1; s2; p1; s4; s5; p2], u))%outcome.

(** ** Modular matrix arithmetic

    [matmodops.py], from which the generator imports its matrix helpers, is
    not among the sources. *)

(** Modelled from the spec: [matmodops.mat33_mat31_mult] is missing;
    section 4.1 of the spec describes it as the 3x3-by-3x1 multiply over
    the integers, every multiply-accumulate computed without overflow. *)
Definition mat33_mat31_mult (A : list (list Z)) (b : list Z) : list Z :=
  map (fun row =>
         fold_right Z.add 0 (map (fun ab => fst ab * snd ab) (combine row b)))
      A.

(** Modelled from the spec: [matmodops.mat31_mod] is missing; section 4.1
    of the spec describes it as the vector-mod that reduces a 3-vector
    componentwise into [[0, m)]. *)
Definition mat31_mod (b : list Z) (m : Z) : list Z :=
  map (fun x => x mod m) b.

(** Modelled from the spec: [matmodops.mat33_mat33_mult] is missing;
    section 4.1 of the spec describes it as the 3x3-by-3x3 multiply over
    the integers. *)
Definition mat33_mat33_mult (A B : list (list Z)) : list (list Z) :=
  map (fun row =>
         map (fun j => fold_right Z.add 0
                         (map (fun ab => fst ab * nth j (snd ab) 0) (combine row B)))
             (seq 0 3))
      A.

(** Modelled from the spec: [matmodops.mat33_mod] is missing; section 4.1
    of the spec describes it as the matrix-mod, the componentwise reduction
    into [[0, m)]. *)
Definition mat33_mod (A : list (list Z)) (m : Z) : list (list Z) :=
  map (fun row => mat31_mod row m) A.

(** Modelled from the spec: [matmodops.mat33_mat33_mod] is missing; the
    product of two matrices followed by the matrix-mod. *)
Definition mat33_mat33_mod (A B : list (list Z)) (m : Z) : list (list Z) :=
  mat33_mod (mat33_mat33_mult A B) m.

Definition identity33 : list (list Z) := [[1; 0; 0]; [0; 1; 0]; [0; 0; 1]].

(** Modelled from the spec: [matmodops.mat33_power_mod] is missing;
    section 4.1 of the spec describes it as the matrix power-mod by
    repeated squaring.  The exponent is consumed from its least significant
    bit: the accumulator is multiplied by the current square when the bit
    is set. *)
Fixpoint mat33_power_mod_pos (A B : list (list Z)) (j : positive) (m : Z)
  : list (list Z) :=
  match j with
  | xH => mat33_mat33_mod A B m
  | xO j' => mat33_power_mod_pos (mat33_mat33_mod A A m) B j' m
  | xI j' => mat33_power_mod_pos (mat33_mat33_mod A A m) (mat33_mat33_mod A B m) j' m
  end.

Definition mat33_power_mod (A : list (list Z)) (j : Z) (m : Z) : list (list Z) :=
  match j with
  | Zpos j' => mat33_power_mod_pos A identity33 j' m
  | _ => identity33
  end.

(** The n-th power of a matrix over the integers, by n successive
    multiplications: what a modular matrix exponentiation has to agree with
    after reduction. *)
Definition mat33_power (A : list (list Z)) (n : nat) : list (list Z) :=
  Nat.iter n (mat33_mat33_mult A) identity33.

(** Lists that are 3x3 matrices. *)
Definition is33 (A : list (list Z)) : Prop :=
  exists a b c d e f g h i : Z, A = [[a; b; c]; [d; e; f]; [g; h; i]].

(** ** The generator object *)

(** The attributes that [MRG32k3a.__init__] creates.  The constant
    attributes [version] and [generate] are left out: [generate] is always
    [mrg32k3a].  The Mersenne-Twister state of the base class
    [random.Random] belongs to the Python library: the calls to [super()]
    only touch that state and are taken to return normally. *)
Record MRG32k3a : Set := mkMRG32k3a {
  _current_state : list Z;
  ref_seed : list Z;
  s_ss_sss_index : list Z;
  stream_start : list Z;
  substream_start : list Z;
  subsubstream_start : list Z
}.

(** Statements that act on a generator: they read and mutate the object
    and return a value or raise.  An exception leaves the mutations made
    before it in place.  [start_fixed_s_ss_sss] stores the caller's triplet
    list itself as the index; the record holds its value, none of the
    properties below depending on what the caller does with the list
    afterwards. *)
Definition M (A : Type) : Type := MRG32k3a -> outcome A * MRG32k3a.

Definition ret {A : Type} (a : A) : M A := fun rng => (Return a, rng).

Definition raise {A : Type} (e : exn) : M A := fun rng => (Raise e, rng).

Definition bind {A B : Type} (c : M A) (k : A -> M B) : M B :=
  fun rng =>
    match c rng with
    | (Return a, rng') => k a rng'
    | (Raise e, rng') => (Raise e, rng')
    end.

Definition lift {A : Type} (c : outcome A) : M A := fun rng => (c, rng).

Definition gets {A : Type} (f : MRG32k3a -> A) : M A := fun rng => (Return (f rng), rng).

Definition modify (f : MRG32k3a -> MRG32k3a) : M unit := fun rng => (Return tt, f rng).

Declare Scope rng_scope.
Delimit Scope rng_scope with rng.
Notation "x <- c ;; k" := (bind c (fun x => k))
  (at level 61, c at next level, right associativity) : rng_scope.
Notation "c ;; k" := (bind c (fun _ => k))
  (at level 61, right associativity) : rng_scope.

(** [assert(b)], with assertions enabled. *)
Definition assert (b : bool) : M unit :=
  if b then ret tt else raise AssertionError.

Definition set_current_state (v : list Z) (rng : MRG32k3a) : MRG32k3a :=
  mkMRG32k3a v (ref_seed rng) (s_ss_sss_index rng)
             (stream_start rng) (substream_start rng) (subsubstream_start rng).

Definition set_ref_seed (v : list Z) (rng : MRG32k3a) : MRG32k3a :=
  mkMRG32k3a (_current_state rng) v (s_ss_sss_index rng)
             (stream_start rng) (substream_start rng) (subsubstream_start rng).

Definition set_s_ss_sss_index (v : list Z) (rng : MRG32k3a) : MRG32k3a :=
  mkMRG32k3a (_current_state rng) (ref_seed rng) v
             (stream_start rng) (substream_start rng) (subsubstream_start rng).

Definition set_stream_start (v : list Z) (rng : MRG32k3a) : MRG32k3a :=
  mkMRG32k3a (_current_state rng) (ref_seed rng) (s_ss_sss_index rng)
             v (substream_start rng) (subsubstream_start rng).

Definition set_substream_start (v : list Z) (rng : MRG32k3a) : MRG32k3a :=
  mkMRG32k3a (_current_state rng) (ref_seed rng) (s_ss_sss_index rng)
             (stream_start rng) v (subsubstream_start rng).

Definition set_subsubstream_start (v : list Z) (rng : MRG32k3a) : MRG32k3a :=
  mkMRG32k3a (_current_state rng) (ref_seed rng) (s_ss_sss_index rng)
             (stream_start rng) (substream_start rng) v.

(** [l[i] = v] on a list: raises [IndexError] out of range. *)
Fixpoint setitem (l : list Z) (i : nat) (v : Z) : outcome (list Z) :=
  match l, i with
  | [], _ => Raise IndexError
  | _ :: l', O => Return (v :: l')
  | x :: l', S i' => obind (setitem l' i' v) (fun r => Return (x :: r))
  end.

(** [rng.s_ss_sss_index[i] += d] *)
Definition index_iadd (i : nat) (d : Z) : M unit :=
  (idx <- gets s_ss_sss_index ;;
   v <- lift (getitem idx i) ;;
   idx' <- lift (setitem idx i (v + d)) ;;
   modify (set_s_ss_sss_index idx'))%rng.

(** [rng.s_ss_sss_index[i] = v] *)
Definition index_set (i : nat) (v : Z) : M unit :=
  (idx <- gets s_ss_sss_index ;;
   idx' <- lift (setitem idx i v) ;;
   modify (set_s_ss_sss_index idx'))%rng.

Local Open Scope rng_scope.

Definition seed (new_state : list Z) : M unit :=
  assert (Nat.eqb (length new_state) 6) ;;
  modify (set_current_state new_state).

Definition random : M Q :=
  state <- gets _current_state ;;
  r <- lift (mrg32k3a state) ;;
  seed (fst r) ;;
  ret (snd r).

Definition get_current_state : M (list Z) := gets _current_state.

(** [setstate(state)] with [state[0]] the generator state; [state[1]] goes
    to the base class. *)
Definition setstate (state0 : list Z) : M unit := seed state0.

(** The state of the base class [random.Random].  [random()] is overridden
    and no method of this class reads it, so its content is not modelled. *)
Inductive base_state : Set := BaseState.

(** [getstate()]: the pair of [get_current_state()] and the base class's
    [getstate()]. *)
Definition getstate : M (list Z * base_state) :=
  state <- get_current_state ;;
  ret (state, BaseState).

(** One application of a pair of jump matrices to the two halves of a
    state: [A*s % m] for both parts. *)
Definition jump (A1 A2 : list (list Z)) (st : list Z * list Z) : list Z * list Z :=
  let nst1m := mat33_mat31_mult A1 (fst st) in
  let nst2m := mat33_mat31_mult A2 (snd st) in
  (mat31_mod nst1m mrgm1, mat31_mod nst2m mrgm2).

Definition advance_stream : M unit :=
  state <- gets stream_start ;;
  let st1 := slice 0 3 state in
  let st2 := slice 3 6 state in
  let nst := jump A1p141 A2p141 (st1, st2) in
  let nstate := fst nst ++ snd nst in
  seed nstate ;;
  index_iadd 0 1 ;;
  modify (set_stream_start nstate) ;;
  modify (set_substream_start nstate) ;;
  modify (set_subsubstream_start nstate).

Definition advance_substream : M unit :=
  state <- gets substream_start ;;
  let st1 := slice 0 3 state in
  let st2 := slice 3 6 state in
  let nst := jump A1p94 A2p94 (st1, st2) in
  let nstate := fst nst ++ snd nst in
  seed nstate ;;
  index_iadd 1 1 ;;
  modify (set_substream_start nstate) ;;
  modify (set_subsubstream_start nstate).

Definition advance_subsubstream : M unit :=
  state <- gets subsubstream_start ;;
  let st1 := slice 0 3 state in
  let st2 := slice 3 6 state in
  let nst := jump A1p47 A2p47 (st1, st2) in
  let nstate := fst nst ++ snd nst in
  seed nstate ;;
  index_iadd 2 1 ;;
  modify (set_subsubstream_start nstate).

Definition reset_stream : M unit :=
  nstate <- gets stream_start ;;
  seed nstate ;;
  modify (set_substream_start nstate) ;;
  modify (set_subsubstream_start nstate) ;;
  index_set 1 0 ;;
  index_set 2 0.

Definition reset_substream : M unit :=
  nstate <- gets substream_start ;;
  seed nstate ;;
  modify (set_subsubstream_start nstate) ;;
  index_set 2 0.

Definition reset_subsubstream : M unit :=
  nstate <- gets subsubstream_start ;;
  seed nstate.

(** [for _ in range(n): st = body(st)]; [range] of a negative number is
    empty. *)
Definition for_range {A : Type} (n : Z) (body : A -> A) (st : A) : A :=
  Nat.iter (Z.to_nat n) body st.

Definition start_fixed_s_ss_sss (s_ss_sss_triplet : list Z) : M unit :=
  state <- gets ref_seed ;;
  let st := (slice 0 3 state, slice 3 6 state) in
  n0 <- lift (getitem s_ss_sss_triplet 0) ;;
  let st := for_range n0 (jump A1p141 A2p141) st in
  modify (set_stream_start (fst st ++ snd st)) ;;
  n1 <- lift (getitem s_ss_sss_triplet 1) ;;
  let st := for_range n1 (jump A1p94 A2p94) st in
  modify (set_substream_start (fst st ++ snd st)) ;;
  n2 <- lift (getitem s_ss_sss_triplet 2) ;;
  let st := for_range n2 (jump A1p47 A2p47) st in
  modify (set_subsubstream_start (fst st ++ snd st)) ;;
  let nstate := fst st ++ snd st in
  seed nstate ;;
  modify (set_s_ss_sss_index s_ss_sss_triplet).

(** [MRG32k3a.__init__(self, ref_seed)].  The last statement,
    [super().__init__(ref_seed)], is [random.Random.__init__], which calls
    [self.seed(ref_seed)]. *)
Definition __init__ (seed0 : list Z) : M unit :=
  assert (Nat.eqb (length seed0) 6) ;;
  modify (set_ref_seed seed0) ;;
  start_fixed_s_ss_sss [0; 0; 0] ;;
  seed seed0.

(** The object before [__init__] has given it any attribute. *)
Definition bare : MRG32k3a := mkMRG32k3a [] [] [] [] [] [].

(** The default argument of [__init__]. *)
Definition default_ref_seed : list Z := [12345; 12345; 12345; 12345; 12345; 12345].

(** [MRG32k3a(ref_seed)] *)
Definition new (seed0 : list Z) : outcome unit * MRG32k3a := __init__ seed0 bare.

Local Close Scope rng_scope.

(** ** Valid states *)

Definition in_range (m x : Z) : Prop := 0 <= x < m.

(** A state is six integers, the first three in [[0, m1)] and the last
    three in [[0, m2)]. *)
Definition valid_state (s : list Z) : Prop :=
  length s = 6%nat /\
  Forall (in_range mrgm1) (slice 0 3 s) /\
  Forall (in_range mrgm2) (slice 3 6 s).

Definition in_rangeb (m x : Z) : bool := (0 <=? x) && (x <? m).

Definition valid_stateb (s : list Z) : bool :=
  Nat.eqb (length s) 6 &&
  forallb (in_rangeb mrgm1) (slice 0 3 s) &&
  forallb (in_rangeb mrgm2) (slice 3 6 s).

(** ** Compound behaviours named by the properties *)

Local Open Scope rng_scope.

(** [n] consecutive calls of a statement. *)
Fixpoint times (n : nat) (c : M unit) : M unit :=
  match n with
  | O => ret tt
  | S n' => c ;; times n' c
  end.

(** The values of [n] consecutive calls of [rng.random()]. *)
Fixpoint draws (n : nat) : M (list Q) :=
  match n with
  | O => ret []
  | S n' => u <- random ;; us <- draws n' ;; ret (u :: us)
  end.

(** The alternative route to a triplet: start at [[0, 0, 0]] and advance. *)
Definition start_then_advance (a b c : Z) : M unit :=
  start_fixed_s_ss_sss [0; 0; 0] ;;
  times (Z.to_nat a) advance_stream ;;
  times (Z.to_nat b) advance_substream ;;
  times (Z.to_nat c) advance_subsubstream.

(** [reset_stream()], then [k] calls of [advance_substream()]. *)
Definition reset_then_advance (k : nat) : M unit :=
  reset_stream ;;
  times k advance_substream.

(** [reset_stream()], [k] calls of [advance_substream()], then
    [reset_substream()]. *)
Definition reset_advance_reset (k : nat) : M unit :=
  reset_stream ;;
  times k advance_substream ;;
  reset_substream.

Local Close Scope rng_scope.

(** The state that one application of a pair of jump matrices makes of a
    state: what the three [advance_] functions compute as [nstate]. *)
Definition jump_state (A1 A2 : list (list Z)) (s : list Z) : list Z :=
  let nst := jump A1 A2 (slice 0 3 s, slice 3 6 s) in
  fst nst ++ snd nst.

(** The operations on a generator. *)
Inductive operation : Set :=
| Random
| AdvanceStream
| AdvanceSubstream
| AdvanceSubsubstream
| ResetStream
| ResetSubstream
| ResetSubsubstream
| StartFixed (s ss sss : Z).

Definition perform (op : operation) : M unit :=
  match op with
  | Random => bind random (fun _ => ret tt)
  | AdvanceStream => advance_stream
  | AdvanceSubstream => advance_substream
  | AdvanceSubsubstream => advance_subsubstream
  | ResetStream => reset_stream
  | ResetSubstream => reset_substream
  | ResetSubsubstream => reset_subsubstream
  | StartFixed s ss sss => start_fixed_s_ss_sss [s; ss; sss]
  end.

(** A sequence of operations, one after the other. *)
Fixpoint perform_all (ops : list operation) : M unit :=
  match ops with
  | [] => ret tt
  | op :: ops' => bind (perform op) (fun _ => perform_all ops')
  end.

(** A generator all of whose states are valid, with an index triplet. *)
Definition valid_rng (rng : MRG32k3a) : Prop :=
  valid_state (_current_state rng) /\
  valid_state (ref_seed rng) /\
  valid_state (stream_start rng) /\
  valid_state (substream_start rng) /\
  valid_state (subsubstream_start rng) /\
  length (s_ss_sss_index rng) = 3%nat.

(** A generator whose attributes have the documented shapes: states of
    length 6 and an index of length 3. *)
Definition well_formed (rng : MRG32k3a) : Prop :=
  length (_current_state rng) = 6%nat /\
  length (ref_seed rng) = 6%nat /\
  length (stream_start rng) = 6%nat /\
  length (substream_start rng) = 6%nat /\
  length (subsubstream_start rng) = 6%nat /\
  length (s_ss_sss_index rng) = 3%nat.

(** ** Notions used by the further properties *)

(** The state that the core step returns; the state itself when the step
    raises. *)
Definition next_state (s : list Z) : list Z :=
  match mrg32k3a s with
  | Return r => fst r
  | Raise _ => s
  end.

(** Generators that differ at most in their current state. *)
Definition same_frame (r1 r2 : MRG32k3a) : Prop :=
  ref_seed r1 = ref_seed r2 /\
  s_ss_sss_index r1 = s_ss_sss_index r2 /\
  stream_start r1 = stream_start r2 /\
  substream_start r1 = substream_start r2 /\
  subsubstream_start r1 = subsubstream_start r2.

(** Statements whose outcome, and whose resulting generator when they
    return, do not depend on the current state they start from. *)
Definition forgets_current_state (c : M unit) : Prop :=
  forall r1 r2,
    same_frame r1 r2 ->
    fst (c r1) = fst (c r2) /\
    (fst (c r1) = Return tt -> snd (c r1) = snd (c r2)).

(** Statements that never assign [ref_seed]. *)
Definition keeps_ref_seed {A : Type} (c : M A) : Prop :=
  forall rng, ref_seed (snd (c rng)) = ref_seed rng.

(** One half of a jump: [A*s % m]. *)
Definition mat_apply (A : list (list Z)) (m : Z) (v : list Z) : list Z :=
  mat31_mod (mat33_mat31_mult A v) m.

(** States of six unsigned 32-bit integers: the valid states and, beyond
    them, components from the modulus up to [2^32 - 1]. *)
Definition uint32_state (s : list Z) : Prop :=
  length s = 6%nat /\ Forall (fun x => 0 <= x < 2 ^ 32) s.

(** The integer that the combination step scales by [mrgnorm]:
    [p1 - p2] brought into [[1, m1]]. *)
Definition combination (p1 p2 : Z) : Z :=
  if p1 <=? p2 then p1 - p2 + mrgm1 else p1 - p2.

(** Statements that, when they return, leave the generator at the start
    of its current subsubstream, a state of length 6. *)
Definition lands_on_subsubstream_start (c : M unit) : Prop :=
  forall rng,
    fst (c rng) = Return tt ->
    _current_state (snd (c rng)) = subsubstream_start (snd (c rng)) /\
    length (subsubstream_start (snd (c rng))) = 6%nat.

Module FloatFacts.
Import Float.
Local Open Scope Q_scope.

Lemma two_pow_pos (e : Z) : 0 < 2 ^ e.
Proof. apply Qpower_0_lt. reflexivity. Qed.

Lemma two_pow_add (a b : Z) : 2 ^ (a + b) == 2 ^ a * 2 ^ b.
Proof. apply Qpower_plus. discriminate. Qed.

Lemma two_pow_neg (e : Z) : 2 ^ (- e) == / 2 ^ e.
Proof. apply Qpower_opp. Qed.

Lemma two_pow_Z (n : Z) : (0 <= n)%Z -> 2 ^ n == inject_Z (2 ^ n).
Proof. intros H. symmetry. apply (Zpower_Qpower 2 n H). Qed.

Lemma two_pow_mono (a b : Z) : (a <= b)%Z -> 2 ^ a <= 2 ^ b.
Proof. intros H. apply Qpower_le_compat_l; [exact H | discriminate]. Qed.

Lemma inject_Z_le (a b : Z) : inject_Z a <= inject_Z b <-> (a <= b)%Z.
Proof. rewrite <- Zle_Qle. tauto. Qed.

Lemma inject_Z_lt (a b : Z) : inject_Z a < inject_Z b <-> (a < b)%Z.
Proof. rewrite <- Zlt_Qlt. tauto. Qed.

Lemma two_pow_cancel (q : Q) (e : Z) : q * 2 ^ (- e) * 2 ^ e == q.
Proof.
  pose proof (two_pow_pos e) as Hp. rewrite two_pow_neg.
  field. intros Hc. rewrite Hc in Hp. discriminate.
Qed.

(** Dividing by a power of two is multiplying by the opposite power. *)
Lemma scale_le_l (x q : Q) (e : Z) : x * 2 ^ e <= q <-> x <= q * 2 ^ (- e).
Proof.
  pose proof (two_pow_pos e) as Hp. split; intros H.
  - rewrite two_pow_neg. apply Qle_shift_div_l; assumption.
  - rewrite <- (two_pow_cancel q e).
    apply Qmult_le_compat_r; [exact H | now apply Qlt_le_weak].
Qed.

Lemma scale_le_r (x q : Q) (e : Z) : q <= x * 2 ^ e <-> q * 2 ^ (- e) <= x.
Proof.
  pose proof (two_pow_pos e) as Hp. split; intros H.
  - rewrite two_pow_neg. apply Qle_shift_div_r; assumption.
  - rewrite <- (two_pow_cancel q e).
    apply Qmult_le_compat_r; [exact H | now apply Qlt_le_weak].
Qed.

(** [floor_log2] never overshoots. *)
Lemma floor_log2_le (q : Q) : 0 < q -> 2 ^ floor_log2 q <= q.
Proof.
  intros Hq. unfold floor_log2.
  destruct (Qle_bool _ q) eqn:Hb.
  - now apply Qle_bool_iff.
  - clear Hb. destruct q as [n d]. cbn [Qnum Qden].
    assert (Hn : (0 < n)%Z).
    { unfold Qlt in Hq. cbn in Hq. lia. }
    pose proof (Z.log2_spec n Hn) as [Ha _].
    pose proof (Z.log2_spec (Zpos d) (Pos2Z.is_pos d)) as [_ Hb].
    pose proof (Z.log2_nonneg n) as Ha0.
    pose proof (Z.log2_nonneg (Zpos d)) as Hb0.
    set (a := Z.log2 n) in *. set (b := Z.log2 (Zpos d)) in *.
    replace (Z.succ b) with (b + 1)%Z in Hb by lia.
    replace (a - b - 1)%Z with (- (b + 1 - a))%Z by lia.
    rewrite <- (Qmult_1_l (2 ^ _)). apply scale_le_l.
    rewrite Z.opp_involutive.
    destruct (Z.le_gt_cases a (b + 1)) as [Hab | Hab].
    + rewrite two_pow_Z by lia.
      replace (2 ^ (b + 1))%Z with (2 ^ a * 2 ^ (b + 1 - a))%Z in Hb
        by (rewrite <- Z.pow_add_r by lia; f_equal; lia).
      assert (0 < 2 ^ (b + 1 - a))%Z by (apply Z.pow_pos_nonneg; lia).
      set (K := (2 ^ (b + 1 - a))%Z) in *.
      unfold Qle, Qmult, inject_Z. cbn [Qnum Qden].
      rewrite Pos.mul_1_r. nia.
    + replace (b + 1 - a)%Z with (- (a - (b + 1)))%Z by lia.
      apply scale_le_l. rewrite Qmult_1_l, two_pow_Z by lia.
      replace (2 ^ a)%Z with (2 ^ (b + 1) * 2 ^ (a - (b + 1)))%Z in Ha
        by (rewrite <- Z.pow_add_r by lia; f_equal; lia).
      assert (0 < 2 ^ (a - (b + 1)))%Z by (apply Z.pow_pos_nonneg; lia).
      set (K := (2 ^ (a - (b + 1)))%Z) in *.
      unfold Qle, inject_Z. cbn [Qnum Qden]. nia.
Qed.

(** [round_half_even] lies between the integers around its argument. *)
Lemma round_half_even_ge (t : Q) (y : Z) :
  inject_Z y <= t -> (y <= round_half_even t)%Z.
Proof.
  intros H. apply Qfloor_resp_le in H. rewrite Qfloor_Z in H.
  unfold round_half_even.
  destruct (Qcompare _ _); [destruct (Z.even _) | | ]; lia.
Qed.

Lemma round_half_even_le (t : Q) (y : Z) :
  t <= inject_Z y -> (round_half_even t <= y)%Z.
Proof.
  intros H. pose proof (Qfloor_le t) as Hf.
  assert (Hfy : (Qfloor t <= y)%Z).
  { apply inject_Z_le. now apply Qle_trans with t. }
  assert (Hgap : 0 < t - inject_Z (Qfloor t) -> (Qfloor t + 1 <= y)%Z).
  { intros Hr. assert (Hlt : (Qfloor t < y)%Z) by (apply inject_Z_lt; lra).
    lia. }
  unfold round_half_even.
  destruct (Qcompare _ _) eqn:Hc.
  - apply Qeq_alt in Hc.
    destruct (Z.even _); [exact Hfy | apply Hgap; lra].
  - exact Hfy.
  - apply Qgt_alt in Hc. apply Hgap. lra.
Qed.

(** The scaled argument of [round53_pos] is at least [2^52]. *)
Lemma scaled_ge (q : Q) :
  0 < q -> inject_Z (2 ^ 52) <= q * 2 ^ (- (floor_log2 q - 52)).
Proof.
  intros Hq. apply scale_le_l.
  rewrite <- two_pow_Z, <- two_pow_add by lia.
  replace (52 + (floor_log2 q - 52))%Z with (floor_log2 q) by lia.
  now apply floor_log2_le.
Qed.

(** A representable number is either an integer multiple of [2^e] or
    smaller than [2^52 * 2^e]. *)
Lemma representable_cases (x : Q) (e : Z) :
  representable x ->
  (exists y : Z, x == inject_Z y * 2 ^ e) \/ x < inject_Z (2 ^ 52) * 2 ^ e.
Proof.
  intros (M & E & HM & Hx).
  destruct (Z.le_gt_cases e E) as [HE | HE].
  - left. exists (M * 2 ^ (E - e))%Z.
    rewrite Hx, inject_Z_mult, <- two_pow_Z by lia.
    rewrite <- Qmult_assoc, <- two_pow_add.
    now replace (E - e + e)%Z with E by lia.
  - right. rewrite Hx.
    pose proof (two_pow_pos E) as HPE.
    pose proof (two_pow_mono E (e - 1) ltac:(lia)) as Hmono.
    assert (He : 2 ^ e == 2 * 2 ^ (e - 1)).
    { replace e with (1 + (e - 1))%Z at 1 by lia. now rewrite two_pow_add. }
    rewrite He.
    assert (HMq : inject_Z M < inject_Z (2 ^ 53)) by (apply inject_Z_lt; lia).
    change (inject_Z (2 ^ 53)) with (2 * inject_Z (2 ^ 52)) in HMq.
    set (m := inject_Z M) in *. set (c := inject_Z (2 ^ 52)) in *.
    assert (Hc : 0 < c) by reflexivity.
    set (PE := 2 ^ E) in *. set (P1 := 2 ^ (e - 1)) in *.
    destruct (Qlt_le_dec 0 m) as [Hm | Hm]; nra.
Qed.

(** Rounding never crosses a representable number. *)
Lemma round53_pos_ge (q x : Q) :
  0 < q -> representable x -> x <= q -> x <= round53_pos q.
Proof.
  intros Hq Hx Hle. unfold round53_pos.
  pose proof (scaled_ge q Hq) as H52.
  set (e := (floor_log2 q - 52)%Z) in *.
  set (t := q * 2 ^ (- e)) in *.
  pose proof (two_pow_pos e) as HP.
  destruct (representable_cases x e Hx) as [[y Hy] | Hsmall].
  - rewrite Hy in *. apply scale_le_l in Hle. fold t in Hle.
    apply round_half_even_ge, inject_Z_le in Hle.
    apply Qmult_le_compat_r; [exact Hle | now apply Qlt_le_weak].
  - apply round_half_even_ge, inject_Z_le in H52.
    apply Qlt_le_weak. eapply Qlt_le_trans; [exact Hsmall |].
    apply Qmult_le_compat_r; [exact H52 | now apply Qlt_le_weak].
Qed.

Lemma round53_pos_le (q x : Q) :
  0 < q -> representable x -> q <= x -> round53_pos q <= x.
Proof.
  intros Hq Hx Hle. unfold round53_pos.
  pose proof (scaled_ge q Hq) as H52.
  set (e := (floor_log2 q - 52)%Z) in *.
  set (t := q * 2 ^ (- e)) in *.
  pose proof (two_pow_pos e) as HP.
  destruct (representable_cases x e Hx) as [[y Hy] | Hsmall].
  - rewrite Hy in *. apply scale_le_r in Hle. fold t in Hle.
    apply round_half_even_le, inject_Z_le in Hle.
    apply Qmult_le_compat_r; [exact Hle | now apply Qlt_le_weak].
  - exfalso. apply scale_le_l in H52.
    apply (Qlt_irrefl x). eapply Qlt_le_trans; [exact Hsmall |].
    now apply Qle_trans with q.
Qed.

Lemma representable_opp (x : Q) : representable x -> representable (- x).
Proof.
  intros (M & E & HM & Hx). exists (- M)%Z, E. split; [lia |].
  rewrite Hx, inject_Z_opp. ring.
Qed.

Lemma Qnum_sign (q : Q) :
  match Qnum q with
  | Z0 => q == 0
  | Zpos _ => 0 < q
  | Zneg _ => q < 0
  end.
Proof. destruct q as [[|n|n] d]; unfold Qeq, Qlt; cbn; lia. Qed.

Theorem round53_ge (q x : Q) : representable x -> x <= q -> x <= round53 q.
Proof.
  intros Hx Hle. unfold round53. pose proof (Qnum_sign q) as Hs.
  destruct (Qnum q).
  - lra.
  - now apply round53_pos_ge.
  - assert (H : round53_pos (- q) <= - x).
    { apply round53_pos_le; [lra | now apply representable_opp | lra]. }
    lra.
Qed.

Theorem round53_le (q x : Q) : representable x -> q <= x -> round53 q <= x.
Proof.
  intros Hx Hle. unfold round53. pose proof (Qnum_sign q) as Hs.
  destruct (Qnum q).
  - lra.
  - now apply round53_pos_le.
  - assert (H : - x <= round53_pos (- q)).
    { apply round53_pos_ge; [lra | now apply representable_opp | lra]. }
    lra.
Qed.

(** Representable numbers are fixed by rounding. *)
Corollary round53_representable (x : Q) : representable x -> round53 x == x.
Proof.
  intros Hx. apply Qle_antisym.
  - apply round53_le; [exact Hx | apply Qle_refl].
  - apply round53_ge; [exact Hx | apply Qle_refl].
Qed.

Lemma representable_Z (z : Z) : (Z.abs z < 2 ^ 53)%Z -> representable (inject_Z z).
Proof. intros H. exists z, 0%Z. split; [exact H |]. cbn. ring. Qed.

(** *** [round53] is rounding to nearest *)

Lemma floor_log2_lt (q : Q) : 0 < q -> q < 2 ^ (floor_log2 q + 1).
Proof.
  intros Hq. unfold floor_log2.
  destruct (Qle_bool _ q) eqn:Hb.
  - clear Hb. destruct q as [n d]. cbn [Qnum Qden].
    assert (Hn : (0 < n)%Z).
    { unfold Qlt in Hq. cbn in Hq. lia. }
    pose proof (Z.log2_spec n Hn) as [_ Ha].
    pose proof (Z.log2_spec (Zpos d) (Pos2Z.is_pos d)) as [Hb _].
    pose proof (Z.log2_nonneg n) as Ha0.
    pose proof (Z.log2_nonneg (Zpos d)) as Hb0.
    set (a := Z.log2 n) in *. set (b := Z.log2 (Zpos d)) in *.
    replace (Z.succ a) with (a + 1)%Z in Ha by lia.
    apply Qnot_le_lt. intros Hc.
    replace (a - b + 1)%Z with (- (b - (a + 1)))%Z in Hc by lia.
    rewrite <- (Qmult_1_l (2 ^ _)) in Hc. apply scale_le_l in Hc.
    rewrite Z.opp_involutive in Hc.
    destruct (Z.le_gt_cases (a + 1) b) as [Hab | Hab].
    + rewrite two_pow_Z in Hc by lia.
      replace (2 ^ b)%Z with (2 ^ (a + 1) * 2 ^ (b - (a + 1)))%Z in Hb
        by (rewrite <- Z.pow_add_r by lia; f_equal; lia).
      assert (0 < 2 ^ (b - (a + 1)))%Z by (apply Z.pow_pos_nonneg; lia).
      set (K := (2 ^ (b - (a + 1)))%Z) in *.
      unfold Qle, Qmult, inject_Z in Hc. cbn [Qnum Qden] in Hc.
      rewrite Pos.mul_1_r in Hc. nia.
    + replace (b - (a + 1))%Z with (- (a + 1 - b))%Z in Hc by lia.
      apply scale_le_l in Hc. rewrite Qmult_1_l, two_pow_Z in Hc by lia.
      replace (2 ^ (a + 1))%Z with (2 ^ b * 2 ^ (a + 1 - b))%Z in Ha
        by (rewrite <- Z.pow_add_r by lia; f_equal; lia).
      assert (0 < 2 ^ (a + 1 - b))%Z by (apply Z.pow_pos_nonneg; lia).
      set (K := (2 ^ (a + 1 - b))%Z) in *.
      unfold Qle, inject_Z in Hc. cbn [Qnum Qden] in Hc. nia.
  - replace (Z.log2 (Qnum q) - Z.log2 (QDen q) - 1 + 1)%Z
      with (Z.log2 (Qnum q) - Z.log2 (QDen q))%Z by lia.
    apply Qnot_le_lt. intros Hc. apply Qle_bool_iff in Hc. congruence.
Qed.

Lemma scaled_le (q : Q) :
  0 < q -> q * 2 ^ (- (floor_log2 q - 52)) <= inject_Z (2 ^ 53).
Proof.
  intros Hq. apply scale_le_r.
  rewrite <- two_pow_Z, <- two_pow_add by lia.
  replace (53 + (floor_log2 q - 52))%Z with (floor_log2 q + 1)%Z by lia.
  apply Qlt_le_weak. now apply floor_log2_lt.
Qed.

(** The result of rounding is a binary64 significand times a power of
    two. *)
Lemma round53_pos_representable (q : Q) : 0 < q -> representable (round53_pos q).
Proof.
  intros Hq. unfold round53_pos.
  pose proof (scaled_ge q Hq) as Hlo. pose proof (scaled_le q Hq) as Hhi.
  set (e := (floor_log2 q - 52)%Z) in *.
  apply round_half_even_ge in Hlo. apply round_half_even_le in Hhi.
  set (M := round_half_even (q * 2 ^ (- e))) in *.
  destruct (Z.eq_dec M (2 ^ 53)) as [HM | HM].
  - exists (2 ^ 52)%Z, (e + 1)%Z. split; [reflexivity |].
    rewrite HM, (Z.add_comm e 1), two_pow_add.
    change (inject_Z (2 ^ 53)) with (inject_Z (2 ^ 52) * 2 ^ 1). ring.
  - exists M, e. split; [| reflexivity].
    change (2 ^ 52)%Z with 4503599627370496%Z in Hlo. lia.
Qed.

Theorem round53_is_representable (q : Q) : representable (round53 q).
Proof.
  unfold round53. pose proof (Qnum_sign q) as Hs. destruct (Qnum q).
  - exists 0%Z, 0%Z. split; reflexivity.
  - now apply round53_pos_representable.
  - apply representable_opp, round53_pos_representable. lra.
Qed.

Lemma round_half_even_nearest (t : Q) (y : Z) :
  Qabs (inject_Z (round_half_even t) - t) <= Qabs (inject_Z y - t).
Proof.
  pose proof (Qfloor_le t) as Hf1. pose proof (Qlt_floor t) as Hf2.
  rewrite inject_Z_plus in Hf2. change (inject_Z 1) with 1 in Hf2.
  assert (Hy : inject_Z y <= inject_Z (Qfloor t) \/
               inject_Z (Qfloor t) + 1 <= inject_Z y).
  { destruct (Z.le_gt_cases y (Qfloor t)) as [H | H].
    - left. now apply inject_Z_le.
    - right. change 1 with (inject_Z 1). rewrite <- inject_Z_plus.
      apply inject_Z_le. lia. }
  unfold round_half_even.
  destruct (Qcompare _ _) eqn:Hc.
  - apply Qeq_alt in Hc.
    destruct (Z.even _); [| rewrite inject_Z_plus; change (inject_Z 1) with 1];
      apply Qabs_case; intros; apply Qabs_case; intros; lra.
  - apply Qlt_alt in Hc.
    apply Qabs_case; intros; apply Qabs_case; intros; lra.
  - apply Qgt_alt in Hc. rewrite inject_Z_plus. change (inject_Z 1) with 1.
    apply Qabs_case; intros; apply Qabs_case; intros; lra.
Qed.

Lemma round53_pos_nearest (q x : Q) :
  0 < q -> representable x -> Qabs (round53_pos q - q) <= Qabs (x - q).
Proof.
  intros Hq Hx. unfold round53_pos.
  pose proof (scaled_ge q Hq) as H52.
  pose proof (two_pow_cancel q (floor_log2 q - 52)) as Hq'.
  set (e := (floor_log2 q - 52)%Z) in *.
  set (t := q * 2 ^ (- e)) in *.
  pose proof (two_pow_pos e) as HP.
  set (M := round_half_even t).
  assert (Hfac : forall z : Q, z * 2 ^ e - q == (z - t) * 2 ^ e).
  { intros z. rewrite <- Hq' at 1. ring. }
  assert (Habs : forall z : Q,
             Qabs (z * 2 ^ e - q) == Qabs (z - t) * 2 ^ e).
  { intros z. rewrite Hfac, Qabs_Qmult.
    now rewrite (Qabs_pos (2 ^ e)) by (now apply Qlt_le_weak). }
  rewrite Habs.
  destruct (representable_cases x e Hx) as [[y Hy] | Hsmall].
  - rewrite Hy, Habs.
    apply Qmult_le_compat_r; [| now apply Qlt_le_weak].
    apply round_half_even_nearest.
  - pose proof (round_half_even_nearest t (2 ^ 52)) as Hn. fold M in Hn.
    rewrite (Qabs_neg (inject_Z (2 ^ 52) - t)) in Hn by lra.
    assert (Hx' : Qabs (x - q) == q - x).
    { rewrite Qabs_neg.
      - ring.
      - apply scale_le_l in H52. lra. }
    rewrite Hx', <- Hq'. fold t.
    set (c := inject_Z (2 ^ 52)) in *. set (P := 2 ^ e) in *.
    set (d := Qabs (inject_Z M - t)) in *. nra.
Qed.

(** No representable number is closer to [q] than [round53 q]. *)
Theorem round53_nearest (q x : Q) :
  representable x -> Qabs (round53 q - q) <= Qabs (x - q).
Proof.
  intros Hx. unfold round53. pose proof (Qnum_sign q) as Hs.
  destruct (Qnum q).
  - rewrite Hs. setoid_replace (0 - 0) with 0 by ring. apply Qabs_nonneg.
  - now apply round53_pos_nearest.
  - pose proof (round53_pos_nearest (- q) (- x) ltac:(lra)
                  (representable_opp x Hx)) as H.
    setoid_replace (- round53_pos (- q) - q)
      with (- (round53_pos (- q) - - q)) by ring.
    setoid_replace (x - q) with (- (- x - - q)) by ring.
    now rewrite !Qabs_opp.
Qed.

Lemma inject_Z_sub (x y : Z) : inject_Z (x - y) = inject_Z x - inject_Z y.
Proof.
  unfold Z.sub, Qminus. now rewrite inject_Z_plus, inject_Z_opp.
Qed.

Lemma representable_below (k : Z) :
  (0 <= k <= 2 ^ 21)%Z -> representable (inject_Z k - (1 # 4294967296)).
Proof.
  intros H. exists (k * 4294967296 - 1)%Z, (-32)%Z. split.
  { change (2 ^ 21)%Z with 2097152%Z in H.
    change (2 ^ 53)%Z with 9007199254740992%Z. lia. }
  rewrite inject_Z_sub, inject_Z_mult.
  change (2 ^ (-32)) with (1 # 4294967296).
  change (inject_Z 4294967296) with (4294967296 # 1).
  change (inject_Z 1) with 1. field.
Qed.

(** [trunc] of a number between two consecutive integers. *)
Lemma trunc_nonneg (r : Q) (k : Z) :
  (0 <= k)%Z -> inject_Z k <= r -> r < inject_Z (k + 1) -> trunc r = k.
Proof.
  destruct r as [n d]. unfold trunc, Qle, Qlt, inject_Z. cbn [Qnum Qden].
  intros Hk H1 H2. rewrite Z.quot_div_nonneg by nia.
  symmetry. apply (Z.div_unique n (Zpos d) k (n - k * Zpos d)); nia.
Qed.

Lemma trunc_opp (r : Q) : trunc (- r) = (- trunc r)%Z.
Proof. destruct r as [n d]. unfold trunc. cbn. apply Z.quot_opp_l. lia. Qed.

Lemma trunc_nonpos (r : Q) (k : Z) :
  (k <= 0)%Z -> inject_Z (k - 1) < r -> r <= inject_Z k -> trunc r = k.
Proof.
  intros Hk H1 H2.
  assert (H : trunc (- r) = (- k)%Z).
  { apply trunc_nonneg; [lia | |].
    - rewrite inject_Z_opp. lra.
    - replace (- k + 1)%Z with (- (k - 1))%Z by lia. rewrite inject_Z_opp. lra. }
  rewrite trunc_opp in H. lia.
Qed.

Lemma overflows_false (r : Q) :
  - inject_Z (2 ^ 53) <= r <= inject_Z (2 ^ 53) -> overflows r = false.
Proof.
  intros [Hlo Hhi]. unfold overflows.
  assert (Hbig : inject_Z (2 ^ 53) < overflow_threshold) by reflexivity.
  apply orb_false_intro.
  - destruct (Qle_bool overflow_threshold r) eqn:Hb; [| reflexivity].
    apply Qle_bool_iff in Hb. lra.
  - destruct (Qle_bool r (- overflow_threshold)) eqn:Hb; [| reflexivity].
    apply Qle_bool_iff in Hb. lra.
Qed.

(** The rounded quotient of an integer by a modulus of at most 32 bits
    stays between the integers around the exact quotient, as long as the
    quotient has at most 21 bits. *)
Lemma round53_quotient (p m : Z) :
  (0 < m <= 2 ^ 32)%Z -> (Z.abs p < 2 ^ 21 * m)%Z ->
  let r := round53 (inject_Z p / inject_Z m) in
  trunc r = Z.quot p m /\ overflows r = false.
Proof.
  intros Hm Hp r.
  assert (Hmq : 0 < inject_Z m) by (apply (inject_Z_lt 0); lia).
  assert (Hm32 : inject_Z m <= 4294967296) by (apply (inject_Z_le m (2 ^ 32)); lia).
  pose proof (Z.quot_rem' p m) as Hqr.
  set (k := Z.quot p m) in *.
  destruct (Z.le_gt_cases 0 p) as [Hsign | Hsign].
  - pose proof (Z.rem_bound_pos p m Hsign ltac:(lia)) as Hrem.
    assert (Hk : (0 <= k < 2 ^ 21)%Z).
    { change (2 ^ 21)%Z with 2097152%Z in *. clear Hm32. nia. }
    assert (Hlo : inject_Z k <= r).
    { apply round53_ge; [apply representable_Z; lia |].
      apply Qle_shift_div_l; [exact Hmq |].
      rewrite <- inject_Z_mult. apply inject_Z_le. lia. }
    assert (Hhi : r <= inject_Z (k + 1) - (1 # 4294967296)).
    { apply round53_le; [apply representable_below; lia |].
      apply Qle_shift_div_r; [exact Hmq |].
      assert (Ha : inject_Z p + 1 <= inject_Z (k + 1) * inject_Z m).
      { rewrite <- inject_Z_mult. change 1 with (inject_Z 1).
        rewrite <- inject_Z_plus. apply inject_Z_le. lia. }
      lra. }
    assert (H21 : inject_Z (k + 1) <= inject_Z (2 ^ 53)) by (apply inject_Z_le; lia).
    assert (H0 : inject_Z 0 <= inject_Z k) by (apply inject_Z_le; lia).
    change (inject_Z 0) with 0 in H0.
    split.
    + apply trunc_nonneg; [lia | exact Hlo | lra].
    + apply overflows_false. assert (0 <= inject_Z (2 ^ 53)) by discriminate. lra.
  - assert (Hrem : (- m < Z.rem p m <= 0)%Z).
    { pose proof (Z.rem_bound_pos (- p) m ltac:(lia) ltac:(lia)) as Hb.
      rewrite Z.rem_opp_l in Hb by lia. lia. }
    assert (Hk : (- 2 ^ 21 < k <= 0)%Z).
    { change (2 ^ 21)%Z with 2097152%Z in *. clear Hm32. nia. }
    assert (Hhi : r <= inject_Z k).
    { apply round53_le; [apply representable_Z; lia |].
      apply Qle_shift_div_r; [exact Hmq |].
      rewrite <- inject_Z_mult. apply inject_Z_le. lia. }
    assert (Hlo : - (inject_Z (- k + 1) - (1 # 4294967296)) <= r).
    { apply round53_ge; [apply representable_opp, representable_below; lia |].
      apply Qle_shift_div_l; [exact Hmq |].
      assert (Ha : 1 - inject_Z p <= inject_Z (- k + 1) * inject_Z m).
      { rewrite <- inject_Z_mult. change 1 with (inject_Z 1).
        rewrite <- inject_Z_sub. apply inject_Z_le. lia. }
      lra. }
    assert (Hk1 : inject_Z (k - 1) == - inject_Z (- k + 1)).
    { rewrite <- inject_Z_opp. replace (- (- k + 1))%Z with (k - 1)%Z by lia.
      reflexivity. }
    assert (H21 : - inject_Z (2 ^ 53) <= inject_Z (k - 1)).
    { rewrite <- inject_Z_opp. apply inject_Z_le. lia. }
    assert (H0 : inject_Z k <= inject_Z 0) by (apply inject_Z_le; lia).
    change (inject_Z 0) with 0 in H0.
    split.
    + apply trunc_nonpos; [lia | lra | exact Hhi].
    + apply overflows_false. assert (0 <= inject_Z (2 ^ 53)) by discriminate. lra.
Qed.

End FloatFacts.

(** ** Agreement with the library's IEEE-754 specification

    On the operands of the known-answer draw, and on a few operands that
    exercise ties and negative quotients, [Float.round53] gives the value
    that [SFdiv], [SFmul] and [binary_normalize] give at precision 53. *)

Example round53_agrees_div_p1 :
  (SF2Q (SFdiv 53 1024 (SF_of_Z 7318757940) (SF_of_Z mrgm1))
   == Float.round53 (inject_Z 7318757940 / inject_Z mrgm1))%Q.
Proof. vm_compute. reflexivity. Qed.

Example round53_agrees_div_p2 :
  (SF2Q (SFdiv 53 1024 (SF_of_Z (-10406551065)) (SF_of_Z mrgm2))
   == Float.round53 (inject_Z (-10406551065) / inject_Z mrgm2))%Q.
Proof. vm_compute. reflexivity. Qed.

Example round53_agrees_mrgnorm :
  (SF2Q (S754_finite false 4503599845474315 (-84)) == mrgnorm)%Q.
Proof. vm_compute. reflexivity. Qed.

Example round53_agrees_mul :
  (SF2Q (SFmul 53 1024 (SF_of_Z 545508589)
           (S754_finite false 4503599845474315 (-84)))
   == Float.round53 (inject_Z 545508589 * mrgnorm))%Q.
Proof. vm_compute. reflexivity. Qed.

Example round53_agrees_tie_down :
  (SF2Q (SF_of_Z (2 ^ 53 + 1)) == Float.round53 (inject_Z (2 ^ 53 + 1)))%Q.
Proof. vm_compute. reflexivity. Qed.

Example round53_agrees_tie_up :
  (SF2Q (SF_of_Z (2 ^ 53 + 3)) == Float.round53 (inject_Z (2 ^ 53 + 3)))%Q.
Proof. vm_compute. reflexivity. Qed.

Example round53_agrees_small_negative :
  (SF2Q (SFdiv 53 1024 (SF_of_Z (-7)) (SF_of_Z mrgm1))
   == Float.round53 (inject_Z (-7) / inject_Z mrgm1))%Q.
Proof. vm_compute. reflexivity. Qed.

(** ** Facts about valid states *)

Lemma in_rangeb_spec (m x : Z) : in_rangeb m x = true <-> in_range m x.
Proof. unfold in_rangeb, in_range. rewrite andb_true_iff. lia. Qed.

Lemma valid_stateb_spec (s : list Z) : valid_stateb s = true <-> valid_state s.
Proof.
  unfold valid_stateb, valid_state.
  rewrite !andb_true_iff, Nat.eqb_eq, !forallb_forall, !Forall_forall.
  split.
  - intros [[H1 H2] H3].
    split; [| split]; [assumption | |]; intros z Hz; apply in_rangeb_spec; auto.
  - intros [H1 [H2 H3]].
    split; [split |]; [assumption | |]; intros z Hz; apply in_rangeb_spec; auto.
Qed.

Lemma length6_inv (s : list Z) :
  length s = 6%nat -> exists a b c d e f, s = [a; b; c; d; e; f].
Proof.
  intros H. do 6 (destruct s as [| ? s]; [discriminate |]).
  destruct s; [| discriminate]. now eexists _, _, _, _, _, _.
Qed.

Lemma valid_state_cons6 (a b c d e f : Z) :
  valid_state [a; b; c; d; e; f] <->
  (in_range mrgm1 a /\ in_range mrgm1 b /\ in_range mrgm1 c) /\
  (in_range mrgm2 d /\ in_range mrgm2 e /\ in_range mrgm2 f).
Proof.
  unfold valid_state, slice. cbn [firstn skipn Nat.sub length]. split.
  - intros (_ & H1 & H2).
    inversion_clear H1 as [| ? ? Ha H1']. inversion_clear H1' as [| ? ? Hb H1''].
    inversion_clear H1'' as [| ? ? Hc _].
    inversion_clear H2 as [| ? ? Hd H2']. inversion_clear H2' as [| ? ? He H2''].
    inversion_clear H2'' as [| ? ? Hf _]. tauto.
  - intros ((Ha & Hb & Hc) & Hd & He & Hf).
    split; [reflexivity |].
    split; repeat (apply Forall_cons; [assumption |]); apply Forall_nil.
Qed.

Lemma valid_state_inv (s : list Z) :
  valid_state s ->
  exists a b c d e f, s = [a; b; c; d; e; f] /\
    (in_range mrgm1 a /\ in_range mrgm1 b /\ in_range mrgm1 c) /\
    (in_range mrgm2 d /\ in_range mrgm2 e /\ in_range mrgm2 f).
Proof.
  intros H. destruct (length6_inv s (proj1 H)) as (a & b & c & d & e & f & ->).
  exists a, b, c, d, e, f. split; [reflexivity |]. now apply valid_state_cons6.
Qed.

(** ** The core step on valid states *)

Section CoreStep.
Import Float FloatFacts.

(** On the operands that valid states produce, [reduce] finds the
    truncated quotient and the residue. *)
Lemma reduce_spec (p m : Z) :
  0 < m <= 2 ^ 32 -> Z.abs p < 2 ^ 21 * m ->
  reduce p m = Return (Z.quot p m, p mod m).
Proof.
  intros Hm Hp. unfold reduce, int_truediv.
  destruct (Z.eqb_spec m 0) as [-> | _]; [lia |].
  destruct (round53_quotient p m Hm Hp) as [Ht Ho].
  rewrite Ho. cbn [obind]. rewrite Ht. do 2 f_equal.
  pose proof (Z.quot_rem' p m) as Hqr.
  assert (Hr : p - Z.quot p m * m = Z.rem p m) by lia.
  rewrite Hr. destruct (Z.ltb_spec (Z.rem p m) 0) as [Hneg | Hpos].
  - assert (p < 0).
    { destruct (Z.le_gt_cases 0 p) as [H0 | H0]; [| exact H0].
      pose proof (Z.rem_bound_pos p m H0 ltac:(lia)). lia. }
    pose proof (Z.rem_bound_pos (- p) m ltac:(lia) ltac:(lia)) as Hb.
    rewrite Z.rem_opp_l in Hb by lia.
    apply (Z.mod_unique p m (Z.quot p m - 1)); lia.
  - assert (Z.rem p m < m).
    { destruct (Z.le_gt_cases 0 p) as [H0 | H0].
      - pose proof (Z.rem_bound_pos p m H0 ltac:(lia)). lia.
      - pose proof (Z.rem_bound_pos (- p) m ltac:(lia) ltac:(lia)) as Hb.
        rewrite Z.rem_opp_l in Hb by lia. lia. }
    apply (Z.mod_unique p m (Z.quot p m)); lia.
Qed.

Lemma mrgnorm_lower : (1 # 8589934592 <= mrgnorm)%Q.
Proof. vm_compute. discriminate. Qed.

Lemma mrgnorm_upper : (inject_Z mrgm1 * mrgnorm <= 1 - (1 # 8589934592))%Q.
Proof. vm_compute. discriminate. Qed.

(** The product of an integer in [[1, m1]] with the normalization
    constant is a float strictly between 0 and 1. *)
Lemma int_mul_float_mrgnorm (n : Z) :
  1 <= n <= mrgm1 ->
  exists u : Q, int_mul_float n mrgnorm = Return u /\ (0 < u < 1)%Q.
Proof.
  intros Hn. unfold int_mul_float, float_of_int.
  assert (Hrep : representable (inject_Z n)).
  { apply representable_Z. unfold mrgm1 in Hn.
    change (2 ^ 53) with 9007199254740992. lia. }
  pose proof (round53_representable _ Hrep) as Hx.
  set (x := round53 (inject_Z n)) in *.
  assert (H1 : (1 <= x)%Q).
  { rewrite Hx. apply (inject_Z_le 1). lia. }
  assert (H2 : (x <= inject_Z mrgm1)%Q).
  { rewrite Hx. apply inject_Z_le. lia. }
  assert (Ho : overflows x = false).
  { apply overflows_false.
    assert (inject_Z mrgm1 <= inject_Z (2 ^ 53))%Q by discriminate.
    assert (- inject_Z (2 ^ 53) <= 0)%Q by discriminate. split; lra. }
  rewrite Ho. cbn [obind]. eexists. split; [reflexivity |].
  pose proof mrgnorm_lower as Hlo. pose proof mrgnorm_upper as Hhi.
  set (c := mrgnorm) in *.
  assert (Hq1 : (1 # 8589934592 <= x * c)%Q) by nra.
  assert (Hq2 : (x * c <= 1 - (1 # 8589934592))%Q) by nra.
  assert (Hr1 : representable (1 # 8589934592)).
  { exists 1, (-33). split; [reflexivity | reflexivity]. }
  assert (Hr2 : representable (1 - (1 # 8589934592))).
  { exists 8589934591, (-33). split; [reflexivity | reflexivity]. }
  pose proof (round53_ge _ _ Hr1 Hq1). pose proof (round53_le _ _ Hr2 Hq2).
  split; lra.
Qed.

(** The core step on a valid state: the new state, and a draw in the
    open unit interval. *)
Lemma mrg32k3a_valid (x1 x2 x3 y1 y2 y3 : Z) :
  valid_state [x1; x2; x3; y1; y2; y3] ->
  exists u : Q,
    mrg32k3a [x1; x2; x3; y1; y2; y3] =
      Return ([x2; x3; (mrga12 * x2 - mrga13n * x1) mod mrgm1;
               y2; y3; (mrga21 * y3 - mrga23n * y1) mod mrgm2], u) /\
    (0 < u < 1)%Q.
Proof.
  intros Hv. apply valid_state_cons6 in Hv.
  destruct Hv as ((Hx1 & Hx2 & Hx3) & Hy1 & Hy2 & Hy3).
  unfold in_range, mrgm1, mrgm2 in *.
  unfold mrg32k3a. cbn [getitem nth_error obind].
  rewrite (reduce_spec _ mrgm1);
    [| unfold mrgm1; change (2 ^ 32) with 4294967296; lia
     | unfold mrgm1, mrga12, mrga13n; change (2 ^ 21) with 2097152; lia].
  cbn [obind snd].
  rewrite (reduce_spec _ mrgm2);
    [| unfold mrgm2; change (2 ^ 32) with 4294967296; lia
     | unfold mrgm2, mrga21, mrga23n; change (2 ^ 21) with 2097152; lia].
  cbn [obind snd].
  set (p1 := (mrga12 * x2 - mrga13n * x1) mod mrgm1).
  set (p2 := (mrga21 * y3 - mrga23n * y1) mod mrgm2).
  assert (Hp1 : 0 <= p1 < mrgm1) by (apply Z.mod_pos_bound; reflexivity).
  assert (Hp2 : 0 <= p2 < mrgm2) by (apply Z.mod_pos_bound; reflexivity).
  unfold mrgm1, mrgm2 in Hp1, Hp2.
  destruct (Z.leb_spec p1 p2) as [Hle | Hgt].
  - destruct (int_mul_float_mrgnorm (p1 - p2 + mrgm1)) as (u & -> & Hu).
    { unfold mrgm1. lia. }
    exists u. split; [reflexivity | exact Hu].
  - destruct (int_mul_float_mrgnorm (p1 - p2)) as (u & -> & Hu).
    { unfold mrgm1. lia. }
    exists u. split; [reflexivity | exact Hu].
Qed.

End CoreStep.

(** ** The generator operations, statement by statement *)

Lemma seed_ok (s : list Z) (rng : MRG32k3a) :
  length s = 6%nat -> seed s rng = (Return tt, set_current_state s rng).
Proof. intros H. unfold seed, bind, assert. now rewrite H. Qed.

Lemma seed_fail (s : list Z) (rng : MRG32k3a) :
  length s <> 6%nat -> seed s rng = (Raise AssertionError, rng).
Proof.
  intros H. unfold seed, bind, assert.
  destruct (Nat.eqb_spec (length s) 6); [contradiction | reflexivity].
Qed.

Lemma mat31_mod_length (b : list Z) (m : Z) : length (mat31_mod b m) = length b.
Proof. apply length_map. Qed.

Lemma mat33_mat31_mult_length (A : list (list Z)) (b : list Z) :
  length (mat33_mat31_mult A b) = length A.
Proof. apply length_map. Qed.

Lemma jump_length (A1 A2 : list (list Z)) (st : list Z * list Z) :
  length (fst (jump A1 A2 st)) = length A1 /\
  length (snd (jump A1 A2 st)) = length A2.
Proof.
  unfold jump. cbn [fst snd].
  now rewrite !mat31_mod_length, !mat33_mat31_mult_length.
Qed.

Lemma jump_state_length (A1 A2 : list (list Z)) (s : list Z) :
  length A1 = 3%nat -> length A2 = 3%nat -> length (jump_state A1 A2 s) = 6%nat.
Proof.
  intros H1 H2. unfold jump_state.
  destruct (jump_length A1 A2 (slice 0 3 s, slice 3 6 s)) as [E1 E2].
  rewrite length_app, E1, E2, H1, H2. reflexivity.
Qed.

(** Unfold the plumbing of the generator monad and evaluate attribute
    reads, index updates and sequencing. *)
Ltac run_rng :=
  unfold index_iadd, index_set, bind, gets, lift, modify, ret, raise,
    set_current_state, set_ref_seed, set_s_ss_sss_index, set_stream_start,
    set_substream_start, set_subsubstream_start;
  cbn [_current_state ref_seed s_ss_sss_index stream_start substream_start
       subsubstream_start getitem setitem nth_error obind fst snd].

Lemma advance_stream_run (rng : MRG32k3a) (i0 : Z) (rest : list Z) :
  s_ss_sss_index rng = i0 :: rest ->
  let ns := jump_state A1p141 A2p141 (stream_start rng) in
  advance_stream rng =
    (Return tt, mkMRG32k3a ns (ref_seed rng) (i0 + 1 :: rest) ns ns ns).
Proof.
  intros Hi ns. unfold advance_stream, bind at 1, gets.
  fold (jump_state A1p141 A2p141 (stream_start rng)). fold ns.
  unfold bind at 1. rewrite seed_ok by (apply jump_state_length; reflexivity).
  clearbody ns. run_rng. rewrite Hi. reflexivity.
Qed.

Lemma advance_substream_run (rng : MRG32k3a) (i0 i1 : Z) (rest : list Z) :
  s_ss_sss_index rng = i0 :: i1 :: rest ->
  let ns := jump_state A1p94 A2p94 (substream_start rng) in
  advance_substream rng =
    (Return tt,
     mkMRG32k3a ns (ref_seed rng) (i0 :: i1 + 1 :: rest) (stream_start rng) ns ns).
Proof.
  intros Hi ns. unfold advance_substream, bind at 1, gets.
  fold (jump_state A1p94 A2p94 (substream_start rng)). fold ns.
  unfold bind at 1. rewrite seed_ok by (apply jump_state_length; reflexivity).
  clearbody ns. run_rng. rewrite Hi. reflexivity.
Qed.

Lemma advance_subsubstream_run (rng : MRG32k3a) (i0 i1 i2 : Z) (rest : list Z) :
  s_ss_sss_index rng = i0 :: i1 :: i2 :: rest ->
  let ns := jump_state A1p47 A2p47 (subsubstream_start rng) in
  advance_subsubstream rng =
    (Return tt,
     mkMRG32k3a ns (ref_seed rng) (i0 :: i1 :: i2 + 1 :: rest)
                (stream_start rng) (substream_start rng) ns).
Proof.
  intros Hi ns. unfold advance_subsubstream, bind at 1, gets.
  fold (jump_state A1p47 A2p47 (subsubstream_start rng)). fold ns.
  unfold bind at 1. rewrite seed_ok by (apply jump_state_length; reflexivity).
  clearbody ns. run_rng. rewrite Hi. reflexivity.
Qed.

Lemma reset_stream_run (rng : MRG32k3a) (i0 i1 i2 : Z) (rest : list Z) :
  length (stream_start rng) = 6%nat ->
  s_ss_sss_index rng = i0 :: i1 :: i2 :: rest ->
  let ns := stream_start rng in
  reset_stream rng =
    (Return tt, mkMRG32k3a ns (ref_seed rng) (i0 :: 0 :: 0 :: rest) ns ns ns).
Proof.
  intros Hl Hi ns. unfold reset_stream, bind at 1, gets. fold ns.
  unfold bind at 1. rewrite seed_ok by exact Hl.
  subst ns. run_rng. rewrite Hi. run_rng. reflexivity.
Qed.

Lemma reset_substream_run (rng : MRG32k3a) (i0 i1 i2 : Z) (rest : list Z) :
  length (substream_start rng) = 6%nat ->
  s_ss_sss_index rng = i0 :: i1 :: i2 :: rest ->
  let ns := substream_start rng in
  reset_substream rng =
    (Return tt,
     mkMRG32k3a ns (ref_seed rng) (i0 :: i1 :: 0 :: rest) (stream_start rng) ns ns).
Proof.
  intros Hl Hi ns. unfold reset_substream, bind at 1, gets. fold ns.
  unfold bind at 1. rewrite seed_ok by exact Hl.
  subst ns. run_rng. rewrite Hi. run_rng. reflexivity.
Qed.

Lemma reset_subsubstream_run (rng : MRG32k3a) :
  length (subsubstream_start rng) = 6%nat ->
  reset_subsubstream rng =
    (Return tt, set_current_state (subsubstream_start rng) rng).
Proof.
  intros Hl. unfold reset_subsubstream, bind, gets. now rewrite seed_ok.
Qed.

(** *** Halves of a state *)

Lemma length3_inv (a : list Z) :
  length a = 3%nat -> exists x y z, a = [x; y; z].
Proof.
  intros H. do 3 (destruct a as [| ? a]; [discriminate |]).
  destruct a; [| discriminate]. now eexists _, _, _.
Qed.

Lemma slice_app_l (a b : list Z) :
  length a = 3%nat -> slice 0 3 (a ++ b) = a.
Proof. intros H. destruct (length3_inv a H) as (x & y & z & ->). reflexivity. Qed.

Lemma slice_app_r (a b : list Z) :
  length a = 3%nat -> length b = 3%nat -> slice 3 6 (a ++ b) = b.
Proof.
  intros Ha Hb. destruct (length3_inv a Ha) as (x & y & z & ->).
  destruct (length3_inv b Hb) as (x' & y' & z' & ->). reflexivity.
Qed.

Lemma slice_join (s : list Z) :
  length s = 6%nat -> slice 0 3 s ++ slice 3 6 s = s.
Proof.
  intros H. destruct (length6_inv s H) as (a & b & c & d & e & f & ->).
  reflexivity.
Qed.

Lemma slice_lengths (s : list Z) :
  length s = 6%nat ->
  length (slice 0 3 s) = 3%nat /\ length (slice 3 6 s) = 3%nat.
Proof.
  intros H. destruct (length6_inv s H) as (a & b & c & d & e & f & ->).
  split; reflexivity.
Qed.

(** The loops of [start_fixed_s_ss_sss] work on the two halves; the
    [advance_] functions on the whole state.  Both agree. *)
Lemma iter_jump_join (A1 A2 : list (list Z)) (n : nat) (st : list Z * list Z) :
  length A1 = 3%nat -> length A2 = 3%nat ->
  length (fst st) = 3%nat -> length (snd st) = 3%nat ->
  length (fst (Nat.iter n (jump A1 A2) st)) = 3%nat /\
  length (snd (Nat.iter n (jump A1 A2) st)) = 3%nat /\
  fst (Nat.iter n (jump A1 A2) st) ++ snd (Nat.iter n (jump A1 A2) st) =
    Nat.iter n (jump_state A1 A2) (fst st ++ snd st).
Proof.
  intros H1 H2 Hf Hs. induction n as [| n IH].
  - auto.
  - rewrite !Nat.iter_succ. destruct IH as (IHf & IHs & IHj).
    destruct (jump_length A1 A2 (Nat.iter n (jump A1 A2) st)) as [E1 E2].
    rewrite E1, E2. repeat split; try assumption.
    rewrite <- IHj. unfold jump_state.
    rewrite slice_app_l, slice_app_r by assumption.
    now rewrite <- surjective_pairing.
Qed.

Lemma iter_jump_state_length (A1 A2 : list (list Z)) (n : nat) (s : list Z) :
  length A1 = 3%nat -> length A2 = 3%nat -> length s = 6%nat ->
  length (Nat.iter n (jump_state A1 A2) s) = 6%nat.
Proof.
  intros H1 H2 Hs. destruct n as [| n]; [exact Hs |].
  rewrite Nat.iter_succ. now apply jump_state_length.
Qed.

Lemma start_fixed_run (rng : MRG32k3a) (a b c : Z) :
  length (ref_seed rng) = 6%nat ->
  let s1 := Nat.iter (Z.to_nat a) (jump_state A1p141 A2p141) (ref_seed rng) in
  let s2 := Nat.iter (Z.to_nat b) (jump_state A1p94 A2p94) s1 in
  let s3 := Nat.iter (Z.to_nat c) (jump_state A1p47 A2p47) s2 in
  start_fixed_s_ss_sss [a; b; c] rng =
    (Return tt, mkMRG32k3a s3 (ref_seed rng) [a; b; c] s1 s2 s3).
Proof.
  intros Hl s1 s2 s3.
  destruct (slice_lengths _ Hl) as [L1 L2].
  set (st0 := (slice 0 3 (ref_seed rng), slice 3 6 (ref_seed rng))).
  destruct (iter_jump_join A1p141 A2p141 (Z.to_nat a) st0
              eq_refl eq_refl L1 L2) as (Fa & Sa & Ja).
  set (sta := Nat.iter (Z.to_nat a) (jump A1p141 A2p141) st0) in *.
  destruct (iter_jump_join A1p94 A2p94 (Z.to_nat b) sta
              eq_refl eq_refl Fa Sa) as (Fb & Sb & Jb).
  set (stb := Nat.iter (Z.to_nat b) (jump A1p94 A2p94) sta) in *.
  destruct (iter_jump_join A1p47 A2p47 (Z.to_nat c) stb
              eq_refl eq_refl Fb Sb) as (Fc & Sc & Jc).
  set (stc := Nat.iter (Z.to_nat c) (jump A1p47 A2p47) stb) in *.
  cbn [fst snd st0] in Ja. rewrite (slice_join _ Hl) in Ja.
  fold s1 in Ja. rewrite Ja in Jb. fold s2 in Jb. rewrite Jb in Jc. fold s3 in Jc.
  unfold start_fixed_s_ss_sss, for_range. run_rng.
  fold st0. fold sta. fold stb. fold stc. rewrite Ja, Jb, Jc.
  rewrite seed_ok.
  - reflexivity.
  - subst s3 s2 s1. repeat apply iter_jump_state_length; auto.
Qed.

(** *** Repeated advances *)

Lemma times_succ (n : nat) (c : M unit) (rng : MRG32k3a) :
  times (S n) c rng =
    match c rng with
    | (Return _, rng') => times n c rng'
    | (Raise e, rng') => (Raise e, rng')
    end.
Proof. reflexivity. Qed.

Lemma times_advance_stream (n : nat) (s r : list Z) (i0 : Z) (rest : list Z) :
  let s' := Nat.iter n (jump_state A1p141 A2p141) s in
  times n advance_stream (mkMRG32k3a s r (i0 :: rest) s s s) =
    (Return tt, mkMRG32k3a s' r (i0 + Z.of_nat n :: rest) s' s' s').
Proof.
  revert s i0. induction n as [| n IH]; intros s i0 s'.
  - subst s'. cbn [Nat.iter times ret Z.of_nat]. now rewrite Z.add_0_r.
  - rewrite times_succ.
    rewrite (advance_stream_run _ i0 rest) by reflexivity.
    cbn [stream_start ref_seed]. rewrite IH.
    subst s'. rewrite Nat.iter_succ_r.
    now replace (i0 + 1 + Z.of_nat n) with (i0 + Z.of_nat (S n)) by lia.
Qed.

Lemma times_advance_substream (n : nat) (s r st : list Z) (i0 i1 : Z) (rest : list Z) :
  let s' := Nat.iter n (jump_state A1p94 A2p94) s in
  times n advance_substream (mkMRG32k3a s r (i0 :: i1 :: rest) st s s) =
    (Return tt, mkMRG32k3a s' r (i0 :: i1 + Z.of_nat n :: rest) st s' s').
Proof.
  revert s i1. induction n as [| n IH]; intros s i1 s'.
  - subst s'. cbn [Nat.iter times ret Z.of_nat]. now rewrite Z.add_0_r.
  - rewrite times_succ.
    rewrite (advance_substream_run _ i0 i1 rest) by reflexivity.
    cbn [stream_start substream_start ref_seed]. rewrite IH.
    subst s'. rewrite Nat.iter_succ_r.
    now replace (i1 + 1 + Z.of_nat n) with (i1 + Z.of_nat (S n)) by lia.
Qed.

Lemma times_advance_subsubstream
      (n : nat) (s r st sst : list Z) (i0 i1 i2 : Z) (rest : list Z) :
  let s' := Nat.iter n (jump_state A1p47 A2p47) s in
  times n advance_subsubstream (mkMRG32k3a s r (i0 :: i1 :: i2 :: rest) st sst s) =
    (Return tt, mkMRG32k3a s' r (i0 :: i1 :: i2 + Z.of_nat n :: rest) st sst s').
Proof.
  revert s i2. induction n as [| n IH]; intros s i2 s'.
  - subst s'. cbn [Nat.iter times ret Z.of_nat]. now rewrite Z.add_0_r.
  - rewrite times_succ.
    rewrite (advance_subsubstream_run _ i0 i1 i2 rest) by reflexivity.
    cbn [stream_start substream_start subsubstream_start ref_seed]. rewrite IH.
    subst s'. rewrite Nat.iter_succ_r.
    now replace (i2 + 1 + Z.of_nat n) with (i2 + Z.of_nat (S n)) by lia.
Qed.

Lemma start_then_advance_run (rng : MRG32k3a) (a b c : Z) :
  length (ref_seed rng) = 6%nat -> 0 <= a -> 0 <= b -> 0 <= c ->
  start_then_advance a b c rng = start_fixed_s_ss_sss [a; b; c] rng.
Proof.
  intros Hl Ha Hb Hc. rewrite (start_fixed_run rng a b c Hl).
  unfold start_then_advance. unfold bind at 1.
  rewrite (start_fixed_run rng 0 0 0 Hl). cbn [Z.to_nat Nat.iter nat_rect].
  unfold bind at 1. rewrite times_advance_stream.
  unfold bind at 1. rewrite times_advance_substream.
  rewrite times_advance_subsubstream.
  now rewrite !Z.add_0_l, !Z2Nat.id by assumption.
Qed.

Lemma random_run (rng : MRG32k3a) :
  valid_state (_current_state rng) ->
  exists (s' : list Z) (u : Q),
    mrg32k3a (_current_state rng) = Return (s', u) /\
    valid_state s' /\ (0 < u < 1)%Q /\
    random rng = (Return u, set_current_state s' rng).
Proof.
  intros Hv.
  destruct (valid_state_inv _ Hv) as (x1 & x2 & x3 & y1 & y2 & y3 & Hs & Hx & Hy).
  rewrite Hs in Hv. destruct (mrg32k3a_valid _ _ _ _ _ _ Hv) as (u & Hstep & Hu).
  eexists _, u. rewrite Hs. split; [exact Hstep |].
  assert (Hv' : valid_state
                  [x2; x3; (mrga12 * x2 - mrga13n * x1) mod mrgm1;
                   y2; y3; (mrga21 * y3 - mrga23n * y1) mod mrgm2]).
  { apply valid_state_cons6. unfold in_range in *.
    repeat split; try tauto; apply Z.mod_pos_bound; reflexivity. }
  split; [exact Hv' |]. split; [exact Hu |].
  unfold random, bind at 1, gets. rewrite Hs.
  unfold bind at 1, lift. rewrite Hstep. cbn [fst snd].
  unfold bind. rewrite seed_ok by apply Hv'. reflexivity.
Qed.

(** *** Validity of jumped states *)

Lemma mat31_mod_range (b : list Z) (m : Z) :
  0 < m -> Forall (in_range m) (mat31_mod b m).
Proof.
  intros Hm. unfold mat31_mod. apply Forall_forall. intros x Hx.
  apply in_map_iff in Hx. destruct Hx as (y & <- & _).
  now apply Z.mod_pos_bound.
Qed.

Lemma jump_state_valid (A1 A2 : list (list Z)) (s : list Z) :
  length A1 = 3%nat -> length A2 = 3%nat -> valid_state (jump_state A1 A2 s).
Proof.
  intros H1 H2. split; [now apply jump_state_length |].
  unfold jump_state.
  destruct (jump_length A1 A2 (slice 0 3 s, slice 3 6 s)) as [E1 E2].
  rewrite H1 in E1. rewrite H2 in E2.
  rewrite slice_app_l, slice_app_r by assumption.
  unfold jump. cbn [fst snd]. split; now apply mat31_mod_range.
Qed.

Lemma iter_jump_state_valid (A1 A2 : list (list Z)) (n : nat) (s : list Z) :
  length A1 = 3%nat -> length A2 = 3%nat -> valid_state s ->
  valid_state (Nat.iter n (jump_state A1 A2) s).
Proof.
  intros H1 H2 Hs. destruct n as [| n]; [exact Hs |].
  rewrite Nat.iter_succ. now apply jump_state_valid.
Qed.

(** ** Modular matrix powers *)

Ltac destruct33 H :=
  let a := fresh "a" in let b := fresh "b" in let c := fresh "c" in
  let d := fresh "d" in let e := fresh "e" in let f := fresh "f" in
  let g := fresh "g" in let h := fresh "h" in let i := fresh "i" in
  destruct H as (a & b & c & d & e & f & g & h & i & ->).

Ltac list_eq :=
  repeat match goal with
         | |- (_ :: _) = (_ :: _) => apply (f_equal2 cons)
         | |- [] = [] => reflexivity
         end.

Ltac solve33 := unfold is33; do 9 eexists; reflexivity.

Lemma is33_mult A B : is33 A -> is33 B -> is33 (mat33_mat33_mult A B).
Proof. intros HA HB. destruct33 HA. destruct33 HB. solve33. Qed.

Lemma is33_mod A m : is33 A -> is33 (mat33_mod A m).
Proof. intros HA. destruct33 HA. solve33. Qed.

Lemma is33_identity : is33 identity33.
Proof. solve33. Qed.

Lemma mult_assoc33 A B C :
  is33 A -> is33 B -> is33 C ->
  mat33_mat33_mult (mat33_mat33_mult A B) C = mat33_mat33_mult A (mat33_mat33_mult B C).
Proof.
  intros HA HB HC. destruct33 HA. destruct33 HB. destruct33 HC.
  cbn -[Z.mul Z.add]. list_eq; ring.
Qed.

Lemma mult_identity_r A : is33 A -> mat33_mat33_mult A identity33 = A.
Proof. intros HA. destruct33 HA. cbn -[Z.mul Z.add]. list_eq; ring. Qed.

Lemma mult_identity_l A : is33 A -> mat33_mat33_mult identity33 A = A.
Proof. intros HA. destruct33 HA. cbn -[Z.mul Z.add]. list_eq; ring. Qed.

Lemma add_mod_cong m a a' b b' :
  a mod m = a' mod m -> b mod m = b' mod m -> (a + b) mod m = (a' + b') mod m.
Proof. intros Ha Hb. rewrite (Zplus_mod a b), (Zplus_mod a' b'), Ha, Hb. reflexivity. Qed.

Lemma mul_mod_cong m a a' b b' :
  a mod m = a' mod m -> b mod m = b' mod m -> (a * b) mod m = (a' * b') mod m.
Proof. intros Ha Hb. rewrite (Zmult_mod a b), (Zmult_mod a' b'), Ha, Hb. reflexivity. Qed.

Ltac mod_cong :=
  repeat first [ reflexivity | apply Zmod_mod | apply add_mod_cong | apply mul_mod_cong ].

Lemma mult_mod_l A B m :
  is33 A -> is33 B ->
  mat33_mod (mat33_mat33_mult (mat33_mod A m) B) m = mat33_mod (mat33_mat33_mult A B) m.
Proof.
  intros HA HB. destruct33 HA. destruct33 HB.
  cbn -[Z.mul Z.add Z.modulo]. list_eq; mod_cong.
Qed.

Lemma mult_mod_r A B m :
  is33 A -> is33 B ->
  mat33_mod (mat33_mat33_mult A (mat33_mod B m)) m = mat33_mod (mat33_mat33_mult A B) m.
Proof.
  intros HA HB. destruct33 HA. destruct33 HB.
  cbn -[Z.mul Z.add Z.modulo]. list_eq; mod_cong.
Qed.

Lemma is33_power A n : is33 A -> is33 (mat33_power A n).
Proof.
  intros HA. induction n as [| n IH].
  - apply is33_identity.
  - unfold mat33_power. rewrite Nat.iter_succ. now apply is33_mult.
Qed.

Lemma power_succ A n : mat33_power A (S n) = mat33_mat33_mult A (mat33_power A n).
Proof. unfold mat33_power. now rewrite Nat.iter_succ. Qed.

Lemma power_add A n k :
  is33 A ->
  mat33_power A (n + k) = mat33_mat33_mult (mat33_power A n) (mat33_power A k).
Proof.
  intros HA. induction n as [| n IH].
  - cbn [Nat.add]. symmetry. apply mult_identity_l. now apply is33_power.
  - cbn [Nat.add]. rewrite !power_succ, IH.
    symmetry. apply mult_assoc33; auto using is33_power.
Qed.

Lemma power_square A n :
  is33 A -> mat33_power (mat33_mat33_mult A A) n = mat33_power A (2 * n).
Proof.
  intros HA. induction n as [| n IH].
  - reflexivity.
  - replace (2 * S n)%nat with (S (S (2 * n))) by lia.
    rewrite !power_succ, IH.
    apply mult_assoc33; auto using is33_power.
Qed.

Lemma power_mod_cong A n m :
  is33 A ->
  mat33_mod (mat33_power (mat33_mod A m) n) m = mat33_mod (mat33_power A n) m.
Proof.
  intros HA. induction n as [| n IH].
  - reflexivity.
  - rewrite !power_succ.
    rewrite mult_mod_l by auto using is33_power, is33_mod.
    rewrite <- mult_mod_r by auto using is33_power, is33_mod.
    rewrite IH. apply mult_mod_r; auto using is33_power.
Qed.

Lemma mat33_power_mod_pos_correct (j : positive) (m : Z) :
  forall A B, is33 A -> is33 B ->
  mat33_power_mod_pos A B j m =
    mat33_mod (mat33_mat33_mult (mat33_power A (Pos.to_nat j)) B) m.
Proof.
  induction j as [j IH | j IH |]; intros A B HA HB; cbn [mat33_power_mod_pos].
  - rewrite IH by (unfold mat33_mat33_mod; auto using is33_mod, is33_mult).
    unfold mat33_mat33_mod.
    rewrite mult_mod_r by auto using is33_power, is33_mod, is33_mult.
    rewrite <- mult_mod_l by auto using is33_power, is33_mod, is33_mult.
    rewrite power_mod_cong by auto using is33_mult.
    rewrite mult_mod_l by auto using is33_power, is33_mult.
    rewrite power_square by assumption.
    rewrite <- mult_assoc33 by auto using is33_power.
    rewrite <- (mult_identity_r A) at 2 by assumption.
    change (mat33_mat33_mult A identity33) with (mat33_power A 1).
    rewrite <- power_add by assumption.
    do 3 f_equal. lia.
  - rewrite IH by (unfold mat33_mat33_mod; auto using is33_mod, is33_mult).
    unfold mat33_mat33_mod.
    rewrite <- mult_mod_l by auto using is33_power, is33_mod, is33_mult.
    rewrite power_mod_cong by auto using is33_mult.
    rewrite mult_mod_l by auto using is33_power, is33_mult.
    rewrite power_square by assumption.
    do 3 f_equal. lia.
  - unfold mat33_mat33_mod. do 2 f_equal.
    change (Pos.to_nat 1) with 1%nat.
    rewrite power_succ. symmetry. now apply mult_identity_r.
Qed.

(** Repeated squaring computes the power of the matrix, reduced. *)
Theorem mat33_power_mod_correct (A : list (list Z)) (j : positive) (m : Z) :
  is33 A ->
  mat33_power_mod A (Zpos j) m = mat33_mod (mat33_power A (Pos.to_nat j)) m.
Proof.
  intros HA. unfold mat33_power_mod.
  rewrite mat33_power_mod_pos_correct by (assumption || apply is33_identity).
  now rewrite mult_identity_r by (now apply is33_power).
Qed.

(** ** Properties of the specification *)

(** C2 (known-answer draw): one core step from
    (12345, 12345, 12345, 12345, 12345, 12345) returns the new state
    (12345, 12345, 3023790853, 12345, 12345, 2478282264) and the draw
    u = 4576057935366987 / 2^55, which lies in [0.1270105, 0.1270115) and
    so is 0.127011 to six, hence to five, significant digits; the quotients
    are k1 = 1 and k2 = -2, the truncations toward zero of p1/m1 and p2/m2,
    where flooring p2/m2 would give -3. *)
Theorem mrg32k3a_known_answer :
  let p1 := mrga12 * 12345 - mrga13n * 12345 in
  let p2 := mrga21 * 12345 - mrga23n * 12345 in
  let u := (4576057935366987 # 36028797018963968)%Q in
  mrg32k3a [12345; 12345; 12345; 12345; 12345; 12345] =
    Return ([12345; 12345; 3023790853; 12345; 12345; 2478282264], u) /\
  (1270105 # 10000000 <= u)%Q /\
  (u < 1270115 # 10000000)%Q /\
  reduce p1 mrgm1 = Return (Z.quot p1 mrgm1, 3023790853) /\
  reduce p2 mrgm2 = Return (Z.quot p2 mrgm2, 2478282264) /\
  Z.quot p1 mrgm1 = 1 /\
  Z.quot p2 mrgm2 = -2 /\
  Z.div p2 mrgm2 = -3.
Proof.
  cbv zeta. split; [vm_compute; reflexivity |].
  split; [vm_compute; discriminate |].
  repeat split; vm_compute; reflexivity.
Qed.

(** C7 (range of the draw): from every valid state the core step returns
    a draw u with 0 < u < 1, and so does each of any number of consecutive
    calls of [random()] on a generator whose current state is valid. *)
Theorem draw_in_open_unit_interval (rng : MRG32k3a) (n : nat) :
  valid_state (_current_state rng) ->
  (exists (s' : list Z) (u : Q),
     mrg32k3a (_current_state rng) = Return (s', u) /\ (0 < u < 1)%Q) /\
  (exists us : list Q,
     fst (draws n rng) = Return us /\ length us = n /\
     Forall (fun u => 0 < u < 1)%Q us).
Proof.
  intros Hv. split.
  - destruct (random_run rng Hv) as (s' & u & Hstep & _ & Hu & _).
    now exists s', u.
  - revert rng Hv. induction n as [| n IH]; intros rng Hv.
    + exists []. repeat split. constructor.
    + destruct (random_run rng Hv) as (s' & u & _ & Hv' & Hu & Hrun).
      destruct (IH (set_current_state s' rng) Hv') as (us & Hus & Hlen & Hall).
      exists (u :: us). cbn [draws]. unfold bind at 1. rewrite Hrun.
      unfold bind at 1.
      destruct (draws n (set_current_state s' rng)) as [[us' | e] rng'];
        cbn [fst] in Hus; [| discriminate].
      injection Hus as ->. cbn [ret fst length].
      repeat split; [now rewrite Hlen | now constructor].
Qed.

Lemma draw_in_open_unit_interval_witness :
  let rng := snd (new default_ref_seed) in
  valid_state (_current_state rng) /\
  (exists (s' : list Z) (u : Q),
     mrg32k3a (_current_state rng) = Return (s', u) /\ (0 < u < 1)%Q) /\
  (exists us : list Q,
     fst (draws 3 rng) = Return us /\ length us = 3%nat /\
     Forall (fun u => 0 < u < 1)%Q us).
Proof.
  split.
  - apply valid_stateb_spec. reflexivity.
  - apply (draw_in_open_unit_interval (snd (new default_ref_seed)) 3).
    apply valid_stateb_spec. reflexivity.
Defined.

Lemma index3_inv (rng : MRG32k3a) :
  length (s_ss_sss_index rng) = 3%nat ->
  exists i0 i1 i2, s_ss_sss_index rng = [i0; i1; i2].
Proof. apply length3_inv. Qed.

Lemma valid_rng_intro (c r i s ss sss : list Z) :
  valid_state c -> valid_state r -> valid_state s -> valid_state ss ->
  valid_state sss -> length i = 3%nat ->
  valid_rng (mkMRG32k3a c r i s ss sss).
Proof. unfold valid_rng. cbn. tauto. Qed.

Create HintDb rng_valid.
#[local] Hint Resolve jump_state_valid iter_jump_state_valid : rng_valid.

Lemma new_run (seed0 : list Z) :
  new seed0 =
    if Nat.eqb (length seed0) 6
    then (Return tt, mkMRG32k3a seed0 seed0 [0; 0; 0] seed0 seed0 seed0)
    else (Raise AssertionError, bare).
Proof.
  unfold new, __init__, bind at 1, assert.
  destruct (Nat.eqb_spec (length seed0) 6) as [Hl | Hl]; [| reflexivity].
  cbn [ret]. unfold bind at 1, modify. unfold bind.
  rewrite (start_fixed_run (set_ref_seed seed0 bare) 0 0 0) by exact Hl.
  cbn [Z.to_nat Nat.iter nat_rect set_ref_seed ref_seed bare].
  now rewrite seed_ok.
Qed.

Lemma operations_valid (op : operation) (rng : MRG32k3a) :
  valid_rng rng ->
  fst (perform op rng) = Return tt /\ valid_rng (snd (perform op rng)).
Proof.
  intros (Hc & Hr & Hs & Hss & Hsss & Hi).
  destruct (random_run rng Hc) as (s' & u & Hstep & Hv' & _ & Hrun).
  destruct (index3_inv rng Hi) as (i0 & i1 & i2 & Hidx).
  destruct op; cbn [perform].
  - unfold bind. rewrite Hrun. cbn [ret fst snd].
    split; [reflexivity |]. now apply valid_rng_intro.
  - rewrite (advance_stream_run rng i0 [i1; i2] Hidx). cbn [fst snd].
    split; [reflexivity |]. apply valid_rng_intro; auto with rng_valid.
  - rewrite (advance_substream_run rng i0 i1 [i2] Hidx). cbn [fst snd].
    split; [reflexivity |]. apply valid_rng_intro; auto with rng_valid.
  - rewrite (advance_subsubstream_run rng i0 i1 i2 [] Hidx). cbn [fst snd].
    split; [reflexivity |]. apply valid_rng_intro; auto with rng_valid.
  - rewrite (reset_stream_run rng i0 i1 i2 [] (proj1 Hs) Hidx). cbn [fst snd].
    split; [reflexivity |]. now apply valid_rng_intro.
  - rewrite (reset_substream_run rng i0 i1 i2 [] (proj1 Hss) Hidx). cbn [fst snd].
    split; [reflexivity |]. now apply valid_rng_intro.
  - rewrite (reset_subsubstream_run rng (proj1 Hsss)). cbn [fst snd].
    split; [reflexivity |]. now apply valid_rng_intro.
  - rewrite (start_fixed_run rng s ss sss (proj1 Hr)). cbn [fst snd].
    split; [reflexivity |]. apply valid_rng_intro; auto 6 with rng_valid.
Qed.

(** C6 (range invariant): on a generator all of whose states are valid,
    the core step returns a valid state, and every operation (a draw, the
    three advances, the three resets, and [start_fixed_s_ss_sss] with any
    triplet) returns normally and leaves every state of the generator
    valid. *)
Theorem operations_preserve_validity (op : operation) (rng : MRG32k3a) :
  valid_rng rng ->
  (exists (s' : list Z) (u : Q),
     mrg32k3a (_current_state rng) = Return (s', u) /\ valid_state s') /\
  fst (perform op rng) = Return tt /\
  valid_rng (snd (perform op rng)).
Proof.
  intros Hv. split.
  - destruct (random_run rng (proj1 Hv)) as (s' & u & Hstep & Hv' & _).
    now exists s', u.
  - now apply operations_valid.
Qed.

Lemma operations_preserve_validity_witness :
  let rng := snd (new default_ref_seed) in
  valid_rng rng /\
  (exists (s' : list Z) (u : Q),
     mrg32k3a (_current_state rng) = Return (s', u) /\ valid_state s') /\
  fst (perform (StartFixed 2 1 3) rng) = Return tt /\
  valid_rng (snd (perform (StartFixed 2 1 3) rng)).
Proof.
  assert (Hv : valid_rng (snd (new default_ref_seed))).
  { unfold valid_rng.
    repeat (split; [apply valid_stateb_spec; reflexivity |]). reflexivity. }
  split.
  - exact Hv.
  - apply (operations_preserve_validity (StartFixed 2 1 3)
             (snd (new default_ref_seed))).
    exact Hv.
Defined.

(** The invariant along any run: a generator constructed from a valid
    RefSeed stays valid through every sequence of operations, and each of
    them returns normally. *)
Lemma new_valid (seed0 : list Z) :
  valid_state seed0 ->
  fst (new seed0) = Return tt /\ valid_rng (snd (new seed0)).
Proof.
  intros Hv. rewrite new_run, (proj1 Hv). cbn [Nat.eqb fst snd].
  split; [reflexivity |]. now apply valid_rng_intro.
Qed.

Lemma perform_all_valid (ops : list operation) (rng : MRG32k3a) :
  valid_rng rng ->
  fst (perform_all ops rng) = Return tt /\
  valid_rng (snd (perform_all ops rng)).
Proof.
  revert rng. induction ops as [| op ops IH]; intros rng Hv.
  - split; [reflexivity | exact Hv].
  - cbn [perform_all]. unfold bind.
    destruct (operations_valid op rng Hv) as (Hret & Hv').
    destruct (perform op rng) as [[[] | e] rng']; cbn [fst snd] in *;
      [| discriminate].
    now apply IH.
Qed.

(** C1 (equivalence of the two routes): for non-negative a, b, c,
    [start_fixed_s_ss_sss(rng, [a, b, c])] and
    [start_fixed_s_ss_sss(rng, [0, 0, 0])] followed by a calls of
    [advance_stream], b of [advance_substream] and c of
    [advance_subsubstream] both return normally and leave the same current
    state, stream_start, substream_start and subsubstream_start. *)
Theorem start_fixed_equals_stepwise_advance (rng : MRG32k3a) (a b c : Z) :
  length (ref_seed rng) = 6%nat -> 0 <= a -> 0 <= b -> 0 <= c ->
  let direct := start_fixed_s_ss_sss [a; b; c] rng in
  let stepwise := start_then_advance a b c rng in
  fst direct = Return tt /\
  fst stepwise = Return tt /\
  _current_state (snd direct) = _current_state (snd stepwise) /\
  stream_start (snd direct) = stream_start (snd stepwise) /\
  substream_start (snd direct) = substream_start (snd stepwise) /\
  subsubstream_start (snd direct) = subsubstream_start (snd stepwise).
Proof.
  intros Hl Ha Hb Hc direct stepwise. subst direct stepwise.
  rewrite (start_then_advance_run rng a b c Hl Ha Hb Hc).
  rewrite (start_fixed_run rng a b c Hl). cbn [fst snd]. tauto.
Qed.

Lemma start_fixed_equals_stepwise_advance_witness :
  let rng := snd (new default_ref_seed) in
  let direct := start_fixed_s_ss_sss [2; 1; 3] rng in
  let stepwise := start_then_advance 2 1 3 rng in
  fst direct = Return tt /\
  fst stepwise = Return tt /\
  _current_state (snd direct) = _current_state (snd stepwise) /\
  stream_start (snd direct) = stream_start (snd stepwise) /\
  substream_start (snd direct) = substream_start (snd stepwise) /\
  subsubstream_start (snd direct) = subsubstream_start (snd stepwise).
Proof.
  apply (start_fixed_equals_stepwise_advance (snd (new default_ref_seed)) 2 1 3);
    [reflexivity | lia | lia | lia].
Defined.

(** What the two advances do to an index triplet: one component is
    incremented and the others are kept. *)
Lemma advance_index_effect (rng : MRG32k3a) (i0 i1 i2 : Z) :
  s_ss_sss_index rng = [i0; i1; i2] ->
  s_ss_sss_index (snd (advance_stream rng)) = [i0 + 1; i1; i2] /\
  s_ss_sss_index (snd (advance_substream rng)) = [i0; i1 + 1; i2].
Proof.
  intros Hi.
  rewrite (advance_stream_run rng i0 [i1; i2] Hi).
  rewrite (advance_substream_run rng i0 i1 [i2] Hi). split; reflexivity.
Qed.

(** C3 (index after an advance), evaluated on the code: [advance_stream]
    increments index component 0 and [advance_substream] increments index
    component 1, but neither touches the components below it.  On the
    default generator moved to triplet [0, 1, 1], [advance_stream] leaves
    the index at [1, 1, 1], while the generator is otherwise exactly the
    one that [start_fixed_s_ss_sss] puts at [1, 0, 0]; moved to [0, 0, 1],
    [advance_substream] leaves the index at [0, 1, 1], the generator being
    otherwise the one at [0, 1, 0]. *)
Theorem advance_leaves_lower_indices :
  let rng0 := snd (new default_ref_seed) in
  (let rng := snd (start_fixed_s_ss_sss [0; 1; 1] rng0) in
   advance_stream rng =
     (Return tt,
      set_s_ss_sss_index [1; 1; 1] (snd (start_fixed_s_ss_sss [1; 0; 0] rng0)))) /\
  (let rng := snd (start_fixed_s_ss_sss [0; 0; 1] rng0) in
   advance_substream rng =
     (Return tt,
      set_s_ss_sss_index [0; 1; 1] (snd (start_fixed_s_ss_sss [0; 1; 0] rng0)))).
Proof. cbv zeta. split; vm_compute; reflexivity. Qed.

(** C5, as stated, fails for k = 2: on the default generator the current
    state after [reset_stream()], two calls of [advance_substream()] and
    [reset_substream()] differs from the state after the first
    [advance_substream()]. *)
Lemma reset_substream_not_first_advance :
  let rng := snd (new default_ref_seed) in
  fst (reset_advance_reset 2 rng) = Return tt /\
  fst (reset_then_advance 1 rng) = Return tt /\
  _current_state (snd (reset_advance_reset 2 rng)) <>
  _current_state (snd (reset_then_advance 1 rng)).
Proof.
  cbv zeta. repeat split; try (vm_compute; reflexivity).
  vm_compute. discriminate.
Qed.

Lemma reset_then_advance_run (k : nat) (rng : MRG32k3a) (i0 i1 i2 : Z) :
  length (stream_start rng) = 6%nat ->
  s_ss_sss_index rng = [i0; i1; i2] ->
  let s' := Nat.iter k (jump_state A1p94 A2p94) (stream_start rng) in
  reset_then_advance k rng =
    (Return tt,
     mkMRG32k3a s' (ref_seed rng) [i0; 0 + Z.of_nat k; 0] (stream_start rng) s' s').
Proof.
  intros Hs Hidx s'. unfold reset_then_advance, bind.
  rewrite (reset_stream_run rng i0 i1 i2 [] Hs Hidx).
  now rewrite times_advance_substream.
Qed.

Lemma reset_advance_reset_run (k : nat) (rng : MRG32k3a) (i0 i1 i2 : Z) :
  length (stream_start rng) = 6%nat ->
  s_ss_sss_index rng = [i0; i1; i2] ->
  let s' := Nat.iter k (jump_state A1p94 A2p94) (stream_start rng) in
  reset_advance_reset k rng =
    (Return tt,
     mkMRG32k3a s' (ref_seed rng) [i0; 0 + Z.of_nat k; 0] (stream_start rng) s' s').
Proof.
  intros Hs Hidx s'. unfold reset_advance_reset, bind.
  rewrite (reset_stream_run rng i0 i1 i2 [] Hs Hidx).
  rewrite times_advance_substream.
  rewrite (reset_substream_run _ i0 (0 + Z.of_nat k) 0 []);
    [reflexivity | | reflexivity].
  cbn [substream_start]. now apply iter_jump_state_length.
Qed.

(** C5 (amended): for every k >= 1, [reset_stream()], then k calls of
    [advance_substream()], then [reset_substream()] returns normally and
    leaves the generator in the current state it had immediately after the
    k-th, that is the last, of those [advance_substream()] calls: the state
    reached from stream_start by k substream jumps. *)
Theorem reset_substream_returns_to_last_advance (k : nat) (rng : MRG32k3a) :
  (1 <= k)%nat -> well_formed rng ->
  fst (reset_advance_reset k rng) = Return tt /\
  fst (reset_then_advance k rng) = Return tt /\
  _current_state (snd (reset_advance_reset k rng)) =
    _current_state (snd (reset_then_advance k rng)) /\
  _current_state (snd (reset_advance_reset k rng)) =
    Nat.iter k (jump_state A1p94 A2p94) (stream_start rng).
Proof.
  intros Hk (_ & _ & Hs & _ & _ & Hi).
  destruct (index3_inv rng Hi) as (i0 & i1 & i2 & Hidx).
  rewrite (reset_advance_reset_run k rng i0 i1 i2 Hs Hidx).
  rewrite (reset_then_advance_run k rng i0 i1 i2 Hs Hidx).
  cbn [fst snd _current_state]. tauto.
Qed.

Lemma reset_substream_returns_to_last_advance_witness :
  let rng := snd (new default_ref_seed) in
  fst (reset_advance_reset 2 rng) = Return tt /\
  fst (reset_then_advance 2 rng) = Return tt /\
  _current_state (snd (reset_advance_reset 2 rng)) =
    _current_state (snd (reset_then_advance 2 rng)) /\
  _current_state (snd (reset_advance_reset 2 rng)) =
    Nat.iter 2 (jump_state A1p94 A2p94) (stream_start rng).
Proof.
  apply (reset_substream_returns_to_last_advance 2 (snd (new default_ref_seed)));
    [lia | repeat split].
Defined.

(** C10 (frame of the resets): [reset_stream] returns normally, sets the
    current state, substream_start and subsubstream_start to stream_start
    and leaves stream_start unchanged; [reset_substream] returns normally,
    sets the current state and subsubstream_start to substream_start and
    leaves substream_start and stream_start unchanged. *)
Theorem reset_overwrites_lower_anchors (rng : MRG32k3a) :
  well_formed rng ->
  (let rng' := snd (reset_stream rng) in
   fst (reset_stream rng) = Return tt /\
   _current_state rng' = stream_start rng /\
   substream_start rng' = stream_start rng /\
   subsubstream_start rng' = stream_start rng /\
   stream_start rng' = stream_start rng) /\
  (let rng' := snd (reset_substream rng) in
   fst (reset_substream rng) = Return tt /\
   _current_state rng' = substream_start rng /\
   subsubstream_start rng' = substream_start rng /\
   substream_start rng' = substream_start rng /\
   stream_start rng' = stream_start rng).
Proof.
  intros (_ & _ & Hs & Hss & _ & Hi).
  destruct (index3_inv rng Hi) as (i0 & i1 & i2 & Hidx). cbv zeta.
  rewrite (reset_stream_run rng i0 i1 i2 [] Hs Hidx).
  rewrite (reset_substream_run rng i0 i1 i2 [] Hss Hidx).
  cbn [fst snd _current_state stream_start substream_start subsubstream_start].
  tauto.
Qed.

Lemma reset_overwrites_lower_anchors_witness :
  let rng := snd (start_fixed_s_ss_sss [1; 2; 3] (snd (new default_ref_seed))) in
  (let rng' := snd (reset_stream rng) in
   fst (reset_stream rng) = Return tt /\
   _current_state rng' = stream_start rng /\
   substream_start rng' = stream_start rng /\
   subsubstream_start rng' = stream_start rng /\
   stream_start rng' = stream_start rng) /\
  (let rng' := snd (reset_substream rng) in
   fst (reset_substream rng) = Return tt /\
   _current_state rng' = substream_start rng /\
   subsubstream_start rng' = substream_start rng /\
   substream_start rng' = substream_start rng /\
   stream_start rng' = stream_start rng).
Proof.
  apply (reset_overwrites_lower_anchors
           (snd (start_fixed_s_ss_sss [1; 2; 3] (snd (new default_ref_seed))))).
  repeat split.
Defined.

(** C8, evaluated on the code: the constructor has the RefSeed as its
    only argument ([def __init__(self, ref_seed = ...)]), so a call such as
    [MRG32k3a(s_ss_sss_index=[2, 0, 0])] of [wrapper_base.py] finds no
    triplet parameter to bind.  Construction from the default RefSeed,
    the one such a call would use, returns the generator at [0, 0, 0]:
    its index is [0, 0, 0] and its three anchors and current state are the
    RefSeed itself.  The states of the triplet [2, 0, 0] differ from it,
    and only a further call of [start_fixed_s_ss_sss] derives them. *)
Theorem construction_takes_no_triplet :
  let rng := snd (new default_ref_seed) in
  let wanted := Nat.iter 2 (jump_state A1p141 A2p141) default_ref_seed in
  new default_ref_seed =
    (Return tt,
     mkMRG32k3a default_ref_seed default_ref_seed [0; 0; 0]
                default_ref_seed default_ref_seed default_ref_seed) /\
  s_ss_sss_index rng <> [2; 0; 0] /\
  stream_start rng <> wanted /\
  substream_start rng <> wanted /\
  subsubstream_start rng <> wanted /\
  _current_state rng <> wanted /\
  start_fixed_s_ss_sss [2; 0; 0] rng =
    (Return tt, mkMRG32k3a wanted default_ref_seed [2; 0; 0] wanted wanted wanted).
Proof.
  cbv zeta. rewrite new_run. cbn [length default_ref_seed Nat.eqb snd].
  split; [reflexivity |].
  cbn [s_ss_sss_index stream_start substream_start subsubstream_start
       _current_state].
  split; [discriminate |].
  assert (Hw : Nat.iter 2 (jump_state A1p141 A2p141) default_ref_seed =
               [3948108410; 2355834610; 2398834796;
                2910385688; 202518264; 2352185706] ->
          default_ref_seed <>
            Nat.iter 2 (jump_state A1p141 A2p141) default_ref_seed).
  { intros ->. discriminate. }
  pose proof (Hw ltac:(vm_compute; reflexivity)) as Hne. clear Hw.
  repeat (split; [exact Hne |]).
  vm_compute. reflexivity.
Qed.

(** C4, as stated, fails: a state of length 6 with components outside
    their modulus ranges is accepted by the constructor, by [seed] and by
    [setstate] without any error, and [random()] then generates from it. *)
Lemma out_of_range_state_accepted :
  let bad := [4294967087; 0; 0; 0; 0; -1] in
  let rng := snd (new default_ref_seed) in
  ~ valid_state bad /\
  fst (new bad) = Return tt /\
  _current_state (snd (new bad)) = bad /\
  seed bad rng = (Return tt, set_current_state bad rng) /\
  setstate bad rng = (Return tt, set_current_state bad rng) /\
  exists u : Q,
    fst (bind (seed bad) (fun _ => random) rng) = Return u.
Proof.
  cbv zeta. split.
  - intros H. apply valid_stateb_spec in H. discriminate H.
  - repeat split; try reflexivity.
    eexists. vm_compute. reflexivity.
Qed.

(** C4 (amended): the constructor, [seed] and [setstate] check the length
    of the state and nothing else.  With a length other than 6 each raises
    AssertionError and leaves the generator as it was, so nothing is
    generated from the rejected state; with length 6 each returns normally
    and installs the state whatever the values of its components. *)
Theorem state_length_is_the_only_check (s : list Z) (rng : MRG32k3a) :
  new s =
    (if Nat.eqb (length s) 6
     then (Return tt, mkMRG32k3a s s [0; 0; 0] s s s)
     else (Raise AssertionError, bare)) /\
  seed s rng =
    (if Nat.eqb (length s) 6
     then (Return tt, set_current_state s rng)
     else (Raise AssertionError, rng)) /\
  setstate s rng =
    (if Nat.eqb (length s) 6
     then (Return tt, set_current_state s rng)
     else (Raise AssertionError, rng)).
Proof.
  split; [apply new_run |].
  unfold setstate.
  destruct (Nat.eqb_spec (length s) 6) as [Hl | Hl].
  - now rewrite seed_ok.
  - now rewrite seed_fail.
Qed.

(** C9 (known-answer matrix): the base matrix of recursion 1 raised to the
    power 2^47 modulo m1 is the literal A1p47, both as computed by repeated
    squaring and as the 2^47-fold product of the matrix reduced modulo
    m1. *)
Theorem A1p47_is_power_of_A1p0 :
  mat33_power_mod A1p0 (2 ^ 47) mrgm1 = A1p47 /\
  mat33_mod (mat33_power A1p0 (Pos.to_nat (2 ^ 47))) mrgm1 = A1p47.
Proof.
  assert (H : mat33_power_mod A1p0 (2 ^ 47) mrgm1 = A1p47)
    by (vm_compute; reflexivity).
  split; [exact H |].
  rewrite <- H. symmetry.
  apply (mat33_power_mod_correct A1p0 (2 ^ 47) mrgm1).
  unfold is33, A1p0. do 9 eexists. reflexivity.
Qed.

(** ** Further properties of the generator *)

(** *** The core step outside its intended inputs *)

Lemma mrg32k3a_short (s : list Z) :
  (length s < 6)%nat -> exists e, mrg32k3a s = Raise e.
Proof.
  intros Hl. unfold mrg32k3a.
  do 6 (destruct s as [| ? s];
        [cbn [getitem nth_error obind];
         repeat match goal with
                | |- context [reduce ?p ?m] =>
                    destruct (reduce p m); cbn [obind snd getitem nth_error]
                end;
         eexists; reflexivity |]).
  cbn [length] in Hl. lia.
Qed.

Lemma mrg32k3a_firstn (s : list Z) : mrg32k3a s = mrg32k3a (firstn 6 s).
Proof.
  do 6 (destruct s as [| ? s]; [reflexivity |]). reflexivity.
Qed.

Lemma mrg32k3a_returns_length6 (s : list Z) (r : list Z * Q) :
  mrg32k3a s = Return r -> length (fst r) = 6%nat.
Proof.
  unfold mrg32k3a. intros H.
  repeat match type of H with
         | obind ?c _ = _ => destruct c; cbn [obind] in H; [| discriminate H]
         end.
  injection H as <-. reflexivity.
Qed.

(** X1 (core step and the length of the state): whenever [mrg32k3a]
    returns, its argument had at least six components, the components
    after the sixth played no part, and the new state has exactly six. *)
Theorem mrg32k3a_state_length (s : list Z) (r : list Z * Q) :
  mrg32k3a s = Return r ->
  (6 <= length s)%nat /\
  mrg32k3a (firstn 6 s) = Return r /\
  length (fst r) = 6%nat.
Proof.
  intros H. split; [| split].
  - destruct (Nat.lt_ge_cases (length s) 6) as [Hlt | Hge]; [| exact Hge].
    destruct (mrg32k3a_short s Hlt) as [e He]. congruence.
  - now rewrite <- mrg32k3a_firstn.
  - now apply (mrg32k3a_returns_length6 s).
Qed.

Lemma mrg32k3a_state_length_witness :
  let s := [12345; 12345; 12345; 12345; 12345; 12345; 7; 8] in
  let r := ([12345; 12345; 3023790853; 12345; 12345; 2478282264],
            (4576057935366987 # 36028797018963968)%Q) in
  (6 <= length s)%nat /\
  mrg32k3a (firstn 6 s) = Return r /\
  length (fst r) = 6%nat.
Proof.
  apply (mrg32k3a_state_length
           [12345; 12345; 12345; 12345; 12345; 12345; 7; 8]).
  vm_compute. reflexivity.
Defined.

(** *** Draws read and write the current state only *)

Lemma random_run_any (rng : MRG32k3a) :
  random rng =
    match mrg32k3a (_current_state rng) with
    | Return r => (Return (snd r), set_current_state (fst r) rng)
    | Raise e => (Raise e, rng)
    end.
Proof.
  unfold random, bind at 1, gets. unfold bind at 1, lift.
  destruct (mrg32k3a (_current_state rng)) as [r | e] eqn:Hstep; [| reflexivity].
  unfold bind.
  now rewrite seed_ok by (exact (mrg32k3a_returns_length6 _ r Hstep)).
Qed.

Lemma same_frame_refl (r : MRG32k3a) : same_frame r r.
Proof. repeat split. Qed.

Lemma same_frame_trans (r1 r2 r3 : MRG32k3a) :
  same_frame r1 r2 -> same_frame r2 r3 -> same_frame r1 r3.
Proof.
  intros (A1 & A2 & A3 & A4 & A5) (B1 & B2 & B3 & B4 & B5).
  repeat split; congruence.
Qed.

Lemma same_frame_sym (r1 r2 : MRG32k3a) : same_frame r1 r2 -> same_frame r2 r1.
Proof. intros (A1 & A2 & A3 & A4 & A5). repeat split; congruence. Qed.

Lemma same_frame_set_current_state (s : list Z) (r : MRG32k3a) :
  same_frame (set_current_state s r) r.
Proof. repeat split. Qed.

Lemma random_frame (rng : MRG32k3a) : same_frame (snd (random rng)) rng.
Proof.
  rewrite random_run_any. destruct (mrg32k3a _); cbn [snd].
  - apply same_frame_set_current_state.
  - apply same_frame_refl.
Qed.

Lemma random_current_state (rng : MRG32k3a) :
  _current_state (snd (random rng)) = next_state (_current_state rng).
Proof.
  rewrite random_run_any. unfold next_state.
  destruct (mrg32k3a _); reflexivity.
Qed.

Lemma draws_succ (n : nat) (rng : MRG32k3a) :
  draws (S n) rng =
    match random rng with
    | (Return u, rng') =>
        match draws n rng' with
        | (Return us, rng'') => (Return (u :: us), rng'')
        | (Raise e, rng'') => (Raise e, rng'')
        end
    | (Raise e, rng') => (Raise e, rng')
    end.
Proof. reflexivity. Qed.

Lemma draws_frame (n : nat) (rng : MRG32k3a) : same_frame (snd (draws n rng)) rng.
Proof.
  revert rng. induction n as [| n IH]; intros rng.
  - apply same_frame_refl.
  - rewrite draws_succ. pose proof (random_frame rng) as Hr.
    destruct (random rng) as [[u | e] rng']; cbn [snd] in *; [| exact Hr].
    pose proof (IH rng') as Hd.
    destruct (draws n rng') as [[us | e] rng'']; cbn [snd] in *;
      eapply same_frame_trans; eassumption.
Qed.

Lemma next_state_raise_fixed (s : list Z) (e : exn) (n : nat) :
  mrg32k3a s = Raise e -> Nat.iter n next_state s = s.
Proof.
  intros H. induction n as [| n IH]; [reflexivity |].
  rewrite Nat.iter_succ, IH. unfold next_state. now rewrite H.
Qed.

Lemma draws_current_state (n : nat) (rng : MRG32k3a) :
  _current_state (snd (draws n rng)) = Nat.iter n next_state (_current_state rng).
Proof.
  revert rng. induction n as [| n IH]; intros rng.
  - reflexivity.
  - rewrite draws_succ, Nat.iter_succ_r.
    pose proof (random_current_state rng) as Hc. rewrite random_run_any in *.
    destruct (mrg32k3a (_current_state rng)) as [r | e] eqn:Hstep; cbn [snd] in *.
    + rewrite <- Hc. pose proof (IH (set_current_state (fst r) rng)) as Hd.
      destruct (draws n _) as [[us | e] rng'']; exact Hd.
    + rewrite <- Hc. symmetry. now apply (next_state_raise_fixed _ e).
Qed.

Lemma draws_values (n : nat) (r1 r2 : MRG32k3a) :
  _current_state r1 = _current_state r2 -> fst (draws n r1) = fst (draws n r2).
Proof.
  revert r1 r2. induction n as [| n IH]; intros r1 r2 Hc.
  - reflexivity.
  - rewrite !draws_succ, !random_run_any, Hc.
    destruct (mrg32k3a (_current_state r2)) as [r | e]; [| reflexivity].
    pose proof (IH (set_current_state (fst r) r1) (set_current_state (fst r) r2)
                   eq_refl) as Hd.
    destruct (draws n (set_current_state (fst r) r1)) as [[us1 | e1] q1];
      destruct (draws n (set_current_state (fst r) r2)) as [[us2 | e2] q2];
      cbn [fst] in *; congruence.
Qed.

(** X2 (draws and the current state): the values of any number of
    consecutive [random()] calls, and the current state they leave, depend
    on the current state alone; the calls never change ref_seed, the index
    or any of the three anchors, whether they return or raise. *)
Theorem draws_touch_only_current_state (n : nat) (r1 r2 : MRG32k3a) :
  _current_state r1 = _current_state r2 ->
  fst (draws n r1) = fst (draws n r2) /\
  _current_state (snd (draws n r1)) = _current_state (snd (draws n r2)) /\
  same_frame (snd (draws n r1)) r1 /\
  same_frame (snd (draws n r2)) r2.
Proof.
  intros Hc. split; [now apply draws_values |].
  split; [now rewrite !draws_current_state, Hc |].
  split; apply draws_frame.
Qed.

Lemma draws_touch_only_current_state_witness :
  let r1 := snd (new default_ref_seed) in
  let r2 := snd (advance_substream (set_current_state default_ref_seed
                                      (snd (advance_stream r1)))) in
  let r2 := set_current_state default_ref_seed r2 in
  fst (draws 4 r1) = fst (draws 4 r2) /\
  _current_state (snd (draws 4 r1)) = _current_state (snd (draws 4 r2)) /\
  same_frame (snd (draws 4 r1)) r1 /\
  same_frame (snd (draws 4 r2)) r2.
Proof.
  cbv zeta.
  apply (draws_touch_only_current_state 4 (snd (new default_ref_seed))).
  reflexivity.
Defined.

(** *** Repositioning does not depend on the draws made before *)

Ltac frame_cases :=
  intros [c1 ref1 i1 s1 ss1 sss1] [c2 ref2 i2 s2 ss2 sss2] H;
  unfold same_frame in H; cbn in H; destruct H as (-> & -> & -> & -> & ->).

Ltac forget_by_seed :=
  unfold seed, assert, index_set, index_iadd, bind, ret, raise, modify, gets,
    lift, set_current_state, set_s_ss_sss_index, set_stream_start,
    set_substream_start, set_subsubstream_start;
  cbn [fst snd _current_state ref_seed s_ss_sss_index stream_start
       substream_start subsubstream_start getitem nth_error];
  match goal with
  | |- context [Nat.eqb ?a ?b] => destruct (Nat.eqb a b)
  end;
  cbn [fst snd]; (split; [reflexivity | intros; reflexivity || discriminate]).

Lemma reset_subsubstream_forgets : forgets_current_state reset_subsubstream.
Proof. frame_cases. unfold reset_subsubstream. forget_by_seed. Qed.

Lemma reset_substream_forgets : forgets_current_state reset_substream.
Proof. frame_cases. unfold reset_substream. forget_by_seed. Qed.

Lemma reset_stream_forgets : forgets_current_state reset_stream.
Proof. frame_cases. unfold reset_stream. forget_by_seed. Qed.

Lemma advance_subsubstream_forgets : forgets_current_state advance_subsubstream.
Proof. frame_cases. unfold advance_subsubstream. forget_by_seed. Qed.

Lemma advance_substream_forgets : forgets_current_state advance_substream.
Proof. frame_cases. unfold advance_substream. forget_by_seed. Qed.

Lemma advance_stream_forgets : forgets_current_state advance_stream.
Proof. frame_cases. unfold advance_stream. forget_by_seed. Qed.

Lemma start_fixed_forgets (t : list Z) :
  forgets_current_state (start_fixed_s_ss_sss t).
Proof.
  frame_cases. unfold start_fixed_s_ss_sss.
  destruct t as [| a [| b [| c t]]];
    try (unfold bind, gets, lift, modify; cbn; split;
         [reflexivity | intros; discriminate]).
  forget_by_seed.
Qed.

Lemma perform_forgets (op : operation) :
  op <> Random -> forgets_current_state (perform op).
Proof.
  intros Hop. destruct op; cbn [perform]; try contradiction.
  - apply advance_stream_forgets.
  - apply advance_substream_forgets.
  - apply advance_subsubstream_forgets.
  - apply reset_stream_forgets.
  - apply reset_substream_forgets.
  - apply reset_subsubstream_forgets.
  - apply start_fixed_forgets.
Qed.

(** X3 (repositioning after draws): for each of the three advances, the
    three resets and [start_fixed_s_ss_sss], the outcome, the generator it
    leaves when it returns, and every value drawn afterwards are the same
    whether or not any number of [random()] calls were made before it. *)
Theorem repositioning_ignores_earlier_draws
        (op : operation) (m n : nat) (rng : MRG32k3a) :
  op <> Random ->
  let drawn := snd (draws m rng) in
  fst (perform op drawn) = fst (perform op rng) /\
  (fst (perform op rng) = Return tt ->
   snd (perform op drawn) = snd (perform op rng)) /\
  fst (bind (perform op) (fun _ => draws n) drawn) =
  fst (bind (perform op) (fun _ => draws n) rng).
Proof.
  intros Hop drawn.
  destruct (perform_forgets op Hop drawn rng (draws_frame m rng)) as [Ho Hs].
  split; [exact Ho |]. split; [now rewrite <- Ho |].
  unfold bind.
  destruct (perform op drawn) as [[[] | e1] q1];
    destruct (perform op rng) as [[[] | e2] q2]; cbn [fst snd] in *;
    try discriminate.
  - now rewrite (Hs eq_refl).
  - injection Ho as ->. reflexivity.
Qed.

Lemma repositioning_ignores_earlier_draws_witness :
  let rng := snd (start_fixed_s_ss_sss [1; 2; 0] (snd (new default_ref_seed))) in
  let drawn := snd (draws 5 rng) in
  fst (perform ResetSubstream drawn) = fst (perform ResetSubstream rng) /\
  (fst (perform ResetSubstream rng) = Return tt ->
   snd (perform ResetSubstream drawn) = snd (perform ResetSubstream rng)) /\
  fst (bind (perform ResetSubstream) (fun _ => draws 3) drawn) =
  fst (bind (perform ResetSubstream) (fun _ => draws 3) rng).
Proof.
  apply (repositioning_ignores_earlier_draws ResetSubstream 5 3
           (snd (start_fixed_s_ss_sss [1; 2; 0] (snd (new default_ref_seed))))).
  discriminate.
Defined.

(** *** Resets absorb the resets below them *)

Ltac absorb :=
  intros [c ref i s ss sss];
  destruct (Nat.eqb (length s) 6) eqn:Hs;
  destruct (Nat.eqb (length ss) 6) eqn:Hss;
  destruct (Nat.eqb (length sss) 6) eqn:Hsss;
  destruct i as [| i0 [| i1 [| i2 i]]];
  unfold reset_stream, reset_substream, reset_subsubstream,
    seed, assert, index_set, bind, ret, raise, modify, gets,
    lift, set_current_state, set_s_ss_sss_index, set_stream_start,
    set_substream_start, set_subsubstream_start;
  repeat (progress
            (cbn [fst snd _current_state ref_seed s_ss_sss_index stream_start
                  substream_start subsubstream_start setitem obind];
             rewrite ?Hs, ?Hss, ?Hsss));
  reflexivity.

(** X4 (composition of resets): a reset followed by the same reset or by a
    reset of a lower level is the first reset alone, as a whole: same
    outcome, same generator, including when the reset raises. *)
Theorem resets_absorb_lower_resets (rng : MRG32k3a) :
  bind reset_stream (fun _ => reset_stream) rng = reset_stream rng /\
  bind reset_stream (fun _ => reset_substream) rng = reset_stream rng /\
  bind reset_stream (fun _ => reset_subsubstream) rng = reset_stream rng /\
  bind reset_substream (fun _ => reset_substream) rng = reset_substream rng /\
  bind reset_substream (fun _ => reset_subsubstream) rng = reset_substream rng /\
  bind reset_subsubstream (fun _ => reset_subsubstream) rng =
    reset_subsubstream rng.
Proof.
  repeat split; revert rng; absorb.
Qed.

(** *** The RefSeed is never reassigned *)

Lemma keeps_bind {A B : Type} (c : M A) (k : A -> M B) :
  keeps_ref_seed c -> (forall a, keeps_ref_seed (k a)) -> keeps_ref_seed (bind c k).
Proof.
  intros Hc Hk rng. unfold bind. specialize (Hc rng).
  destruct (c rng) as [[a | e] rng']; cbn [snd] in *; [| exact Hc].
  now rewrite Hk.
Qed.

Lemma keeps_ret {A : Type} (a : A) : keeps_ref_seed (ret a).
Proof. intros rng. reflexivity. Qed.

Lemma keeps_lift {A : Type} (c : outcome A) : keeps_ref_seed (lift c).
Proof. intros rng. reflexivity. Qed.

Lemma keeps_gets {A : Type} (f : MRG32k3a -> A) : keeps_ref_seed (gets f).
Proof. intros rng. reflexivity. Qed.

Lemma keeps_assert (b : bool) : keeps_ref_seed (assert b).
Proof. intros rng. destruct b; reflexivity. Qed.

Lemma keeps_modify (f : MRG32k3a -> MRG32k3a) :
  (forall rng, ref_seed (f rng) = ref_seed rng) -> keeps_ref_seed (modify f).
Proof. intros H rng. apply H. Qed.

Ltac keeps :=
  cbv zeta;
  repeat first
    [ apply keeps_ret | apply keeps_lift | apply keeps_gets | apply keeps_assert
    | apply keeps_modify; intros ?; reflexivity
    | apply keeps_bind; [| intros ?] ].

Lemma keeps_seed (s : list Z) : keeps_ref_seed (seed s).
Proof. unfold seed. keeps. Qed.

Lemma keeps_index_iadd (i : nat) (d : Z) : keeps_ref_seed (index_iadd i d).
Proof. unfold index_iadd. keeps. Qed.

Lemma keeps_index_set (i : nat) (v : Z) : keeps_ref_seed (index_set i v).
Proof. unfold index_set. keeps. Qed.

Lemma keeps_random : keeps_ref_seed random.
Proof. unfold random. keeps. Qed.

Lemma keeps_start_fixed (t : list Z) : keeps_ref_seed (start_fixed_s_ss_sss t).
Proof. unfold start_fixed_s_ss_sss. keeps. Qed.

Lemma keeps_perform (op : operation) : keeps_ref_seed (perform op).
Proof.
  destruct op; cbn [perform];
    [ | unfold advance_stream | unfold advance_substream
      | unfold advance_subsubstream | unfold reset_stream
      | unfold reset_substream | unfold reset_subsubstream | ];
    try apply keeps_start_fixed;
    keeps;
    auto using keeps_seed, keeps_index_iadd, keeps_index_set, keeps_random.
Qed.

Lemma keeps_perform_all (ops : list operation) : keeps_ref_seed (perform_all ops).
Proof.
  induction ops as [| op ops IH]; cbn [perform_all].
  - apply keeps_ret.
  - apply keeps_bind; [apply keeps_perform | intros _; exact IH].
Qed.

(** X5 (the RefSeed and the history): no draw, advance, reset or
    [start_fixed_s_ss_sss] ever changes ref_seed, and the generator that
    [start_fixed_s_ss_sss] leaves is the same after any sequence of such
    operations as before it: a triplet always names the same states. *)
Theorem start_fixed_ignores_history
        (ops : list operation) (rng : MRG32k3a) (a b c : Z) :
  length (ref_seed rng) = 6%nat ->
  let later := snd (perform_all ops rng) in
  ref_seed later = ref_seed rng /\
  start_fixed_s_ss_sss [a; b; c] later = start_fixed_s_ss_sss [a; b; c] rng.
Proof.
  intros Hl later. pose proof (keeps_perform_all ops rng) as Hk. fold later in Hk.
  split; [exact Hk |].
  rewrite (start_fixed_run later a b c) by (now rewrite Hk).
  rewrite (start_fixed_run rng a b c Hl). now rewrite Hk.
Qed.

Lemma start_fixed_ignores_history_witness :
  let rng := snd (new default_ref_seed) in
  let ops := [AdvanceStream; Random; AdvanceSubstream; Random; ResetStream;
              StartFixed 3 1 4; AdvanceSubsubstream] in
  let later := snd (perform_all ops rng) in
  ref_seed later = ref_seed rng /\
  start_fixed_s_ss_sss [1; 2; 3] later = start_fixed_s_ss_sss [1; 2; 3] rng.
Proof.
  apply (start_fixed_ignores_history
           [AdvanceStream; Random; AdvanceSubstream; Random; ResetStream;
            StartFixed 3 1 4; AdvanceSubsubstream]
           (snd (new default_ref_seed)) 1 2 3).
  reflexivity.
Defined.

(** *** Advancing from a triplet *)

(** X6 (advance after start_fixed): from the generator that
    [start_fixed_s_ss_sss] puts at a triplet [a, b, c] of non-negative
    integers, [advance_subsubstream] leads to exactly the generator at
    [a, b, c + 1]; [advance_substream] and [advance_stream] lead to the
    states, anchors and RefSeed of the generators at [a, b + 1, 0] and at
    [a + 1, 0, 0], with the index [a, b + 1, c] and [a + 1, b, c]. *)
Theorem advance_reaches_next_triplet (rng : MRG32k3a) (a b c : Z) :
  length (ref_seed rng) = 6%nat -> 0 <= a -> 0 <= b -> 0 <= c ->
  let at_ t := snd (start_fixed_s_ss_sss t rng) in
  advance_subsubstream (at_ [a; b; c]) =
    (Return tt, at_ [a; b; c + 1]) /\
  advance_substream (at_ [a; b; c]) =
    (Return tt, set_s_ss_sss_index [a; b + 1; c] (at_ [a; b + 1; 0])) /\
  advance_stream (at_ [a; b; c]) =
    (Return tt, set_s_ss_sss_index [a + 1; b; c] (at_ [a + 1; 0; 0])).
Proof.
  intros Hl Ha Hb Hc at_. subst at_. cbv beta.
  rewrite !(start_fixed_run rng) by exact Hl. cbn [snd].
  rewrite (advance_subsubstream_run _ a b c []) by reflexivity.
  rewrite (advance_substream_run _ a b [c]) by reflexivity.
  rewrite (advance_stream_run _ a [b; c]) by reflexivity.
  cbn [stream_start substream_start subsubstream_start ref_seed
       set_s_ss_sss_index _current_state].
  replace (Z.to_nat (c + 1)) with (S (Z.to_nat c)) by lia.
  replace (Z.to_nat (b + 1)) with (S (Z.to_nat b)) by lia.
  replace (Z.to_nat (a + 1)) with (S (Z.to_nat a)) by lia.
  rewrite !Nat.iter_succ. cbn [Z.to_nat Nat.iter nat_rect].
  repeat split.
Qed.

Lemma advance_reaches_next_triplet_witness :
  let at_ t := snd (start_fixed_s_ss_sss t (snd (new default_ref_seed))) in
  advance_subsubstream (at_ [2; 0; 1]) =
    (Return tt, at_ [2; 0; 1 + 1]) /\
  advance_substream (at_ [2; 0; 1]) =
    (Return tt, set_s_ss_sss_index [2; 0 + 1; 1] (at_ [2; 0 + 1; 0])) /\
  advance_stream (at_ [2; 0; 1]) =
    (Return tt, set_s_ss_sss_index [2 + 1; 0; 1] (at_ [2 + 1; 0; 0])).
Proof.
  apply (advance_reaches_next_triplet (snd (new default_ref_seed)) 2 0 1);
    [reflexivity | lia | lia | lia].
Defined.

(** *** Triplets of other shapes *)

Lemma start_fixed_longer (a b c : Z) (extra : list Z) (rng : MRG32k3a) :
  start_fixed_s_ss_sss (a :: b :: c :: extra) rng =
    match start_fixed_s_ss_sss [a; b; c] rng with
    | (Return _, r) => (Return tt, set_s_ss_sss_index (a :: b :: c :: extra) r)
    | (Raise e, r) => (Raise e, r)
    end.
Proof.
  unfold start_fixed_s_ss_sss, seed, assert, bind, ret, raise, modify, gets, lift.
  cbn [getitem nth_error fst snd].
  match goal with
  | |- context [Nat.eqb ?x ?y] => destruct (Nat.eqb x y)
  end; reflexivity.
Qed.

(** X7 (triplets with negative or extra components): only the first three
    components of the triplet position the generator, a negative component
    counting as zero jumps, while the list is stored as the index exactly
    as it was given. *)
Theorem start_fixed_clips_triplet
        (rng : MRG32k3a) (a b c : Z) (extra : list Z) :
  length (ref_seed rng) = 6%nat ->
  start_fixed_s_ss_sss (a :: b :: c :: extra) rng =
    (Return tt,
     set_s_ss_sss_index (a :: b :: c :: extra)
       (snd (start_fixed_s_ss_sss [Z.max 0 a; Z.max 0 b; Z.max 0 c] rng))).
Proof.
  intros Hl. rewrite start_fixed_longer.
  rewrite !(start_fixed_run rng) by exact Hl. cbn [snd].
  replace (Z.to_nat (Z.max 0 a)) with (Z.to_nat a) by lia.
  replace (Z.to_nat (Z.max 0 b)) with (Z.to_nat b) by lia.
  replace (Z.to_nat (Z.max 0 c)) with (Z.to_nat c) by lia.
  reflexivity.
Qed.

Lemma start_fixed_clips_triplet_witness :
  let rng := snd (new default_ref_seed) in
  start_fixed_s_ss_sss (-1 :: 2 :: -5 :: [9]) rng =
    (Return tt,
     set_s_ss_sss_index (-1 :: 2 :: -5 :: [9])
       (snd (start_fixed_s_ss_sss [Z.max 0 (-1); Z.max 0 2; Z.max 0 (-5)] rng))).
Proof.
  apply (start_fixed_clips_triplet (snd (new default_ref_seed)) (-1) 2 (-5) [9]).
  reflexivity.
Defined.

(** X8 (triplets that are too short): with fewer than three components
    [start_fixed_s_ss_sss] raises IndexError, after it has already stored
    the anchors the components present determine: none for an empty list,
    stream_start for one component, stream_start and substream_start for
    two.  The current state, the index and the remaining anchors are left
    as they were. *)
Theorem start_fixed_short_triplet (rng : MRG32k3a) (s ss : Z) :
  start_fixed_s_ss_sss [] rng = (Raise IndexError, rng) /\
  start_fixed_s_ss_sss [s] rng =
    (Raise IndexError,
     set_stream_start
       (stream_start (snd (start_fixed_s_ss_sss [s; 0; 0] rng))) rng) /\
  start_fixed_s_ss_sss [s; ss] rng =
    (Raise IndexError,
     set_substream_start
       (substream_start (snd (start_fixed_s_ss_sss [s; ss; 0] rng)))
       (set_stream_start
          (stream_start (snd (start_fixed_s_ss_sss [s; ss; 0] rng))) rng)).
Proof.
  destruct rng as [c ref i st sst ssst].
  unfold start_fixed_s_ss_sss, seed, assert, bind, ret, raise, modify, gets, lift.
  cbn [getitem nth_error fst snd ref_seed].
  split; [reflexivity |].
  split;
    repeat match goal with
           | |- context [Nat.eqb ?x ?y] => destruct (Nat.eqb x y)
           end; reflexivity.
Qed.

(** *** Checkpoints *)

(** X9 (checkpoint and replay): the pair returned by [getstate()] is a
    complete checkpoint of the draw sequence: after any later sequence of
    draws, advances, resets and [start_fixed_s_ss_sss] calls, handing it
    back through [setstate], which seeds the generator with the first
    component of the pair, returns normally, makes the following draws
    repeat the draws that followed the checkpoint, and leaves ref_seed,
    the index and the three anchors where those later operations put
    them. *)
Theorem setstate_replays_draws
        (ops : list operation) (n : nat) (rng : MRG32k3a)
        (saved : list Z * base_state) :
  fst (getstate rng) = Return saved ->
  length (fst saved) = 6%nat ->
  let later := snd (perform_all ops rng) in
  let restored := snd (setstate (fst saved) later) in
  fst (setstate (fst saved) later) = Return tt /\
  fst (draws n restored) = fst (draws n rng) /\
  same_frame restored later.
Proof.
  intros Hget Hl later restored. subst restored.
  unfold getstate, get_current_state, bind, gets, ret in Hget.
  cbn [fst] in Hget. injection Hget as Hsaved.
  unfold setstate. rewrite (seed_ok (fst saved) later Hl). cbn [fst snd].
  split; [reflexivity |]. split.
  - apply draws_values. now rewrite <- Hsaved.
  - apply same_frame_set_current_state.
Qed.

Lemma setstate_replays_draws_witness :
  let rng := snd (start_fixed_s_ss_sss [0; 1; 0] (snd (new default_ref_seed))) in
  let saved := (_current_state rng, BaseState) in
  let later := snd (perform_all [Random; Random; AdvanceStream; Random] rng) in
  let restored := snd (setstate (fst saved) later) in
  fst (setstate (fst saved) later) = Return tt /\
  fst (draws 3 restored) = fst (draws 3 rng) /\
  same_frame restored later.
Proof.
  apply (setstate_replays_draws [Random; Random; AdvanceStream; Random] 3
           (snd (start_fixed_s_ss_sss [0; 1; 0] (snd (new default_ref_seed))))
           (_current_state
              (snd (start_fixed_s_ss_sss [0; 1; 0] (snd (new default_ref_seed)))),
            BaseState));
    reflexivity.
Defined.

(** *** Whole runs *)

(** X10 (runs from a valid seed): a generator constructed from a seed whose
    components are in their modulus ranges goes through any sequence of
    draws, advances, resets and [start_fixed_s_ss_sss] calls without any
    of them raising, and all its states stay valid. *)
Theorem run_from_valid_seed_never_raises
        (seed0 : list Z) (ops : list operation) :
  valid_state seed0 ->
  fst (new seed0) = Return tt /\
  fst (perform_all ops (snd (new seed0))) = Return tt /\
  valid_rng (snd (perform_all ops (snd (new seed0)))).
Proof.
  intros Hv. destruct (new_valid seed0 Hv) as [Hn Hr].
  split; [exact Hn |]. now apply perform_all_valid.
Qed.

Lemma run_from_valid_seed_never_raises_witness :
  let ops := [Random; AdvanceSubstream; Random; ResetStream; StartFixed 1 0 2;
              AdvanceSubsubstream; Random] in
  valid_state default_ref_seed /\
  fst (new default_ref_seed) = Return tt /\
  fst (perform_all ops (snd (new default_ref_seed))) = Return tt /\
  valid_rng (snd (perform_all ops (snd (new default_ref_seed)))).
Proof.
  assert (Hv : valid_state default_ref_seed)
    by (apply valid_stateb_spec; reflexivity).
  split; [exact Hv |].
  apply (run_from_valid_seed_never_raises default_ref_seed
           [Random; AdvanceSubstream; Random; ResetStream; StartFixed 1 0 2;
            AdvanceSubsubstream; Random]).
  exact Hv.
Defined.

(** *** Jumps are skipped draws *)

Lemma dot3_mod_r (m a b c y1 y2 y3 : Z) :
  (a * (y1 mod m) + (b * (y2 mod m) + (c * (y3 mod m) + 0))) mod m =
  (a * y1 + (b * y2 + (c * y3 + 0))) mod m.
Proof. mod_cong. Qed.

Lemma mat_apply_length (A : list (list Z)) (m : Z) (v : list Z) :
  length (mat_apply A m v) = length A.
Proof. unfold mat_apply. now rewrite mat31_mod_length, mat33_mat31_mult_length. Qed.

Lemma mat_apply_mult (A B : list (list Z)) (m : Z) (v : list Z) :
  is33 A -> is33 B -> length v = 3%nat ->
  mat_apply (mat33_mat33_mult A B) m v = mat_apply A m (mat_apply B m v).
Proof.
  intros HA HB Hv. destruct33 HA. destruct33 HB.
  destruct (length3_inv v Hv) as (x & y & z & ->).
  unfold mat_apply. cbn -[Z.mul Z.add Z.modulo].
  rewrite !dot3_mod_r. list_eq; f_equal; ring.
Qed.

Lemma mat_apply_mod (A : list (list Z)) (m : Z) (v : list Z) :
  is33 A -> length v = 3%nat ->
  mat_apply (mat33_mod A m) m v = mat_apply A m v.
Proof.
  intros HA Hv. destruct33 HA.
  destruct (length3_inv v Hv) as (x & y & z & ->).
  unfold mat_apply. cbn -[Z.mul Z.add Z.modulo]. list_eq; mod_cong.
Qed.

Lemma mat_apply_identity (m : Z) (v : list Z) :
  length v = 3%nat -> mat_apply identity33 m v = mat31_mod v m.
Proof.
  intros Hv. destruct (length3_inv v Hv) as (x & y & z & ->).
  unfold mat_apply. cbn -[Z.mul Z.add Z.modulo]. list_eq; f_equal; ring.
Qed.

Lemma mat_apply_power (A : list (list Z)) (m : Z) (n : nat) (v : list Z) :
  is33 A -> length v = 3%nat ->
  mat_apply (mat33_power A n) m v = Nat.iter n (mat_apply A m) (mat31_mod v m).
Proof.
  intros HA Hv. induction n as [| n IH].
  - now apply mat_apply_identity.
  - rewrite power_succ, Nat.iter_succ, <- IH.
    apply mat_apply_mult; auto using is33_power.
Qed.

Lemma mat31_mod_small (v : list Z) (m : Z) :
  Forall (in_range m) v -> mat31_mod v m = v.
Proof.
  unfold mat31_mod. induction 1 as [| x v Hx _ IH]; [reflexivity |].
  cbn [map]. rewrite IH. f_equal. now apply Z.mod_small.
Qed.

Lemma iter_jump_pair (A1 A2 : list (list Z)) (n : nat) (v1 v2 : list Z) :
  Nat.iter n (jump A1 A2) (v1, v2) =
    (Nat.iter n (mat_apply A1 mrgm1) v1, Nat.iter n (mat_apply A2 mrgm2) v2).
Proof.
  induction n as [| n IH]; [reflexivity |].
  rewrite !Nat.iter_succ, IH. reflexivity.
Qed.

(** A jump by the reduced n-th powers of two matrices is n jumps by the
    matrices themselves. *)
Lemma jump_state_power (A1 A2 : list (list Z)) (n : nat) (s : list Z) :
  is33 A1 -> is33 A2 -> valid_state s ->
  jump_state (mat33_mod (mat33_power A1 n) mrgm1)
             (mat33_mod (mat33_power A2 n) mrgm2) s =
    Nat.iter n (jump_state A1 A2) s.
Proof.
  intros H1 H2 (Hl & Hr1 & Hr2).
  destruct (slice_lengths s Hl) as [L1 L2].
  assert (E1 : length A1 = 3%nat) by (destruct33 H1; reflexivity).
  assert (E2 : length A2 = 3%nat) by (destruct33 H2; reflexivity).
  destruct (iter_jump_join A1 A2 n (slice 0 3 s, slice 3 6 s) E1 E2 L1 L2)
    as (_ & _ & Hj).
  cbn [fst snd] in Hj. rewrite (slice_join s Hl) in Hj. rewrite <- Hj.
  rewrite iter_jump_pair. cbn [fst snd].
  unfold jump_state, jump. cbn [fst snd].
  fold (mat_apply (mat33_mod (mat33_power A1 n) mrgm1) mrgm1 (slice 0 3 s)).
  fold (mat_apply (mat33_mod (mat33_power A2 n) mrgm2) mrgm2 (slice 3 6 s)).
  rewrite !mat_apply_mod by auto using is33_power.
  rewrite !mat_apply_power by assumption.
  now rewrite !mat31_mod_small by assumption.
Qed.

Lemma is33_A1p0 : is33 A1p0.
Proof. unfold is33, A1p0. do 9 eexists. reflexivity. Qed.

Lemma is33_A2p0 : is33 A2p0.
Proof. unfold is33, A2p0. do 9 eexists. reflexivity. Qed.

(** The six jump matrices are the powers that the comments beside them
    name. *)
Lemma jump_matrices_are_powers :
  A1p47 = mat33_mod (mat33_power A1p0 (Pos.to_nat (2 ^ 47))) mrgm1 /\
  A2p47 = mat33_mod (mat33_power A2p0 (Pos.to_nat (2 ^ 47))) mrgm2 /\
  A1p94 = mat33_mod (mat33_power A1p0 (Pos.to_nat (2 ^ 94))) mrgm1 /\
  A2p94 = mat33_mod (mat33_power A2p0 (Pos.to_nat (2 ^ 94))) mrgm2 /\
  A1p141 = mat33_mod (mat33_power A1p0 (Pos.to_nat (2 ^ 141))) mrgm1 /\
  A2p141 = mat33_mod (mat33_power A2p0 (Pos.to_nat (2 ^ 141))) mrgm2.
Proof.
  assert (H1 : mat33_power_mod A1p0 (2 ^ 47) mrgm1 = A1p47)
    by (vm_compute; reflexivity).
  assert (H2 : mat33_power_mod A2p0 (2 ^ 47) mrgm2 = A2p47)
    by (vm_compute; reflexivity).
  assert (H3 : mat33_power_mod A1p0 (2 ^ 94) mrgm1 = A1p94)
    by (vm_compute; reflexivity).
  assert (H4 : mat33_power_mod A2p0 (2 ^ 94) mrgm2 = A2p94)
    by (vm_compute; reflexivity).
  assert (H5 : mat33_power_mod A1p0 (2 ^ 141) mrgm1 = A1p141)
    by (vm_compute; reflexivity).
  assert (H6 : mat33_power_mod A2p0 (2 ^ 141) mrgm2 = A2p141)
    by (vm_compute; reflexivity).
  rewrite <- H1, <- H2, <- H3, <- H4, <- H5, <- H6.
  split; [exact (mat33_power_mod_correct A1p0 (2 ^ 47) mrgm1 is33_A1p0) |].
  split; [exact (mat33_power_mod_correct A2p0 (2 ^ 47) mrgm2 is33_A2p0) |].
  split; [exact (mat33_power_mod_correct A1p0 (2 ^ 94) mrgm1 is33_A1p0) |].
  split; [exact (mat33_power_mod_correct A2p0 (2 ^ 94) mrgm2 is33_A2p0) |].
  split; [exact (mat33_power_mod_correct A1p0 (2 ^ 141) mrgm1 is33_A1p0) |].
  exact (mat33_power_mod_correct A2p0 (2 ^ 141) mrgm2 is33_A2p0).
Qed.

Lemma shift_row_2 (m a x c : Z) :
  in_range m x -> (0 * a + (1 * x + (0 * c + 0))) mod m = x.
Proof.
  intros H. replace (0 * a + (1 * x + (0 * c + 0))) with x by ring.
  now apply Z.mod_small.
Qed.

Lemma shift_row_3 (m a b x : Z) :
  in_range m x -> (0 * a + (0 * b + (1 * x + 0))) mod m = x.
Proof.
  intros H. replace (0 * a + (0 * b + (1 * x + 0))) with x by ring.
  now apply Z.mod_small.
Qed.

(** On valid states the core step is the jump by the two base matrices. *)
Lemma next_state_is_base_jump (s : list Z) :
  valid_state s ->
  next_state s = jump_state A1p0 A2p0 s /\ valid_state (next_state s).
Proof.
  intros Hv.
  destruct (valid_state_inv s Hv)
    as (x1 & x2 & x3 & y1 & y2 & y3 & -> & (Hx1 & Hx2 & Hx3) & Hy1 & Hy2 & Hy3).
  destruct (mrg32k3a_valid _ _ _ _ _ _ Hv) as (u & Hstep & _).
  unfold next_state. rewrite Hstep. cbn [fst].
  assert (E : [x2; x3; (mrga12 * x2 - mrga13n * x1) mod mrgm1;
               y2; y3; (mrga21 * y3 - mrga23n * y1) mod mrgm2] =
              jump_state A1p0 A2p0 [x1; x2; x3; y1; y2; y3]).
  { unfold jump_state, jump, mat33_mat31_mult, mat31_mod, slice, A1p0, A2p0.
    cbn -[Z.mul Z.add Z.modulo Z.opp Z.sub].
    rewrite !shift_row_2, !shift_row_3 by assumption.
    list_eq; f_equal; ring. }
  split; [exact E |].
  rewrite E. apply jump_state_valid; reflexivity.
Qed.

Lemma iter_next_state (n : nat) (s : list Z) :
  valid_state s ->
  Nat.iter n next_state s = Nat.iter n (jump_state A1p0 A2p0) s /\
  valid_state (Nat.iter n next_state s).
Proof.
  intros Hv. induction n as [| n [IH IHv]].
  - split; [reflexivity | exact Hv].
  - rewrite !Nat.iter_succ.
    destruct (next_state_is_base_jump _ IHv) as [E V].
    split; [now rewrite E, IH | exact V].
Qed.

(** A jump by one of the three pairs of jump matrices is the stated number
    of core steps. *)
Lemma jump_is_iterated_step (s : list Z) :
  valid_state s ->
  jump_state A1p47 A2p47 s = Nat.iter (Pos.to_nat (2 ^ 47)) next_state s /\
  jump_state A1p94 A2p94 s = Nat.iter (Pos.to_nat (2 ^ 94)) next_state s /\
  jump_state A1p141 A2p141 s = Nat.iter (Pos.to_nat (2 ^ 141)) next_state s.
Proof.
  intros Hv.
  destruct jump_matrices_are_powers as (E1 & E2 & E3 & E4 & E5 & E6).
  rewrite E1, E2, E3, E4, E5, E6.
  rewrite !jump_state_power by (apply is33_A1p0 || apply is33_A2p0 || exact Hv).
  split; [| split]; symmetry; exact (proj1 (iter_next_state _ s Hv)).
Qed.

(** X11 (jumps are skipped draws): on a generator whose states are valid,
    [advance_subsubstream] puts the current state where 2^47 calls of
    [random()] from subsubstream_start would leave it, [advance_substream]
    where 2^94 calls from substream_start would, and [advance_stream]
    where 2^141 calls from stream_start would: substreams, as the
    docstrings say, have these lengths. *)
Theorem advances_skip_draws (rng : MRG32k3a) :
  valid_rng rng ->
  let after_draws n start :=
    _current_state (snd (draws n (set_current_state start rng))) in
  _current_state (snd (advance_subsubstream rng)) =
    after_draws (Pos.to_nat (2 ^ 47)) (subsubstream_start rng) /\
  _current_state (snd (advance_substream rng)) =
    after_draws (Pos.to_nat (2 ^ 94)) (substream_start rng) /\
  _current_state (snd (advance_stream rng)) =
    after_draws (Pos.to_nat (2 ^ 141)) (stream_start rng).
Proof.
  intros (_ & _ & Hs & Hss & Hsss & Hi) after_draws. subst after_draws.
  cbv beta. rewrite !draws_current_state. cbn [set_current_state _current_state].
  destruct (index3_inv rng Hi) as (i0 & i1 & i2 & Hidx).
  rewrite (advance_subsubstream_run rng i0 i1 i2 [] Hidx).
  rewrite (advance_substream_run rng i0 i1 [i2] Hidx).
  rewrite (advance_stream_run rng i0 [i1; i2] Hidx).
  cbn [snd _current_state].
  destruct (jump_is_iterated_step _ Hsss) as (E47 & _ & _).
  destruct (jump_is_iterated_step _ Hss) as (_ & E94 & _).
  destruct (jump_is_iterated_step _ Hs) as (_ & _ & E141).
  split; [exact E47 | split; [exact E94 | exact E141]].
Qed.

Lemma advances_skip_draws_witness :
  let rng := snd (new default_ref_seed) in
  let after_draws n start :=
    _current_state (snd (draws n (set_current_state start rng))) in
  _current_state (snd (advance_subsubstream rng)) =
    after_draws (Pos.to_nat (2 ^ 47)) (subsubstream_start rng) /\
  _current_state (snd (advance_substream rng)) =
    after_draws (Pos.to_nat (2 ^ 94)) (substream_start rng) /\
  _current_state (snd (advance_stream rng)) =
    after_draws (Pos.to_nat (2 ^ 141)) (stream_start rng).
Proof.
  assert (Hv : valid_rng (snd (new default_ref_seed))).
  { unfold valid_rng.
    repeat (split; [apply valid_stateb_spec; reflexivity |]). reflexivity. }
  exact (advances_skip_draws (snd (new default_ref_seed)) Hv).
Defined.

(** *** The core step on unsigned 32-bit states *)

Section CoreStepExact.
Import Float FloatFacts.

Lemma uint32_state_cons6 (a b c d e f : Z) :
  uint32_state [a; b; c; d; e; f] ->
  (0 <= a < 2 ^ 32 /\ 0 <= b < 2 ^ 32 /\ 0 <= c < 2 ^ 32) /\
  (0 <= d < 2 ^ 32 /\ 0 <= e < 2 ^ 32 /\ 0 <= f < 2 ^ 32).
Proof.
  intros (_ & H).
  inversion_clear H as [| ? ? Ha H1]. inversion_clear H1 as [| ? ? Hb H2].
  inversion_clear H2 as [| ? ? Hc H3]. inversion_clear H3 as [| ? ? Hd H4].
  inversion_clear H4 as [| ? ? He H5]. inversion_clear H5 as [| ? ? Hf _].
  tauto.
Qed.

Lemma valid_state_uint32 (s : list Z) : valid_state s -> uint32_state s.
Proof.
  intros Hv.
  destruct (valid_state_inv s Hv)
    as (a & b & c & d & e & f & -> & (Ha & Hb & Hc) & Hd & He & Hf).
  unfold in_range, mrgm1, mrgm2 in *. change (2 ^ 32) with 4294967296.
  split; [reflexivity |].
  repeat constructor; lia.
Qed.

Lemma combination_range (p1 p2 : Z) :
  in_range mrgm1 p1 -> in_range mrgm2 p2 -> 1 <= combination p1 p2 <= mrgm1.
Proof.
  unfold in_range, combination, mrgm1, mrgm2. intros H1 H2.
  destruct (Z.leb_spec p1 p2); lia.
Qed.

(** The product of an integer in [[1, m1]] with the normalization
    constant: the float nearest to the exact product, at least [2^-33]
    away from 0 and from 1. *)
Lemma int_mul_float_mrgnorm_exact (n : Z) :
  1 <= n <= mrgm1 ->
  exists u : Q,
    int_mul_float n mrgnorm = Return u /\
    (1 # 8589934592 <= u <= 1 - (1 # 8589934592))%Q /\
    forall x : Q, representable x ->
      (Qabs (u - inject_Z n * mrgnorm) <= Qabs (x - inject_Z n * mrgnorm))%Q.
Proof.
  intros Hn. unfold int_mul_float, float_of_int.
  assert (Hrep : representable (inject_Z n)).
  { apply representable_Z. unfold mrgm1 in Hn.
    change (2 ^ 53) with 9007199254740992. lia. }
  pose proof (round53_representable _ Hrep) as Hx.
  set (x := round53 (inject_Z n)) in *.
  assert (H1 : (1 <= x)%Q).
  { rewrite Hx. apply (inject_Z_le 1). lia. }
  assert (H2 : (x <= inject_Z mrgm1)%Q).
  { rewrite Hx. apply inject_Z_le. lia. }
  assert (Ho : overflows x = false).
  { apply overflows_false.
    assert (inject_Z mrgm1 <= inject_Z (2 ^ 53))%Q by discriminate.
    assert (- inject_Z (2 ^ 53) <= 0)%Q by discriminate. split; lra. }
  rewrite Ho. cbn [obind]. eexists. split; [reflexivity |].
  pose proof mrgnorm_lower as Hlo. pose proof mrgnorm_upper as Hhi.
  split.
  - set (c := mrgnorm) in *.
    assert (Hq1 : (1 # 8589934592 <= x * c)%Q) by nra.
    assert (Hq2 : (x * c <= 1 - (1 # 8589934592))%Q) by nra.
    assert (Hr1 : representable (1 # 8589934592)).
    { exists 1, (-33). split; [reflexivity | reflexivity]. }
    assert (Hr2 : representable (1 - (1 # 8589934592))).
    { exists 8589934591, (-33). split; [reflexivity | reflexivity]. }
    pose proof (round53_ge _ _ Hr1 Hq1). pose proof (round53_le _ _ Hr2 Hq2).
    split; assumption.
  - intros y Hy. pose proof (round53_nearest (x * mrgnorm) y Hy) as Hnear.
    rewrite Hx in Hnear at 2 3. exact Hnear.
Qed.

(** The core step on six unsigned 32-bit integers. *)
Lemma mrg32k3a_uint32 (x1 x2 x3 y1 y2 y3 : Z) :
  uint32_state [x1; x2; x3; y1; y2; y3] ->
  let p1 := (mrga12 * x2 - mrga13n * x1) mod mrgm1 in
  let p2 := (mrga21 * y3 - mrga23n * y1) mod mrgm2 in
  exists u : Q,
    mrg32k3a [x1; x2; x3; y1; y2; y3] =
      Return ([x2; x3; p1; y2; y3; p2], u) /\
    (1 # 8589934592 <= u <= 1 - (1 # 8589934592))%Q /\
    forall x : Q, representable x ->
      (Qabs (u - inject_Z (combination p1 p2) * mrgnorm) <=
       Qabs (x - inject_Z (combination p1 p2) * mrgnorm))%Q.
Proof.
  intros Hu p1 p2. apply uint32_state_cons6 in Hu.
  destruct Hu as ((Hx1 & Hx2 & Hx3) & Hy1 & Hy2 & Hy3).
  change (2 ^ 32) with 4294967296 in *.
  unfold mrg32k3a. cbn [getitem nth_error obind].
  rewrite (reduce_spec _ mrgm1);
    [| unfold mrgm1; change (2 ^ 32) with 4294967296; lia
     | unfold mrgm1, mrga12, mrga13n; change (2 ^ 21) with 2097152; lia].
  cbn [obind snd].
  rewrite (reduce_spec _ mrgm2);
    [| unfold mrgm2; change (2 ^ 32) with 4294967296; lia
     | unfold mrgm2, mrga21, mrga23n; change (2 ^ 21) with 2097152; lia].
  cbn [obind snd]. fold p1 p2.
  assert (Hp1 : in_range mrgm1 p1) by (apply Z.mod_pos_bound; reflexivity).
  assert (Hp2 : in_range mrgm2 p2) by (apply Z.mod_pos_bound; reflexivity).
  pose proof (combination_range p1 p2 Hp1 Hp2) as Hz.
  destruct (int_mul_float_mrgnorm_exact _ Hz) as (u & Hmul & Hb & Hnear).
  exists u. split; [| split; assumption].
  unfold combination in Hmul.
  destruct (p1 <=? p2); rewrite Hmul; reflexivity.
Qed.

End CoreStepExact.

(** X12 (the core step, exactly): on a state of six unsigned 32-bit
    integers, valid or not, [mrg32k3a] returns; its float division and
    truncation compute the two linear recurrences modulo m1 and m2
    exactly; and the draw is the float nearest to [z * mrgnorm] for the
    integer [z = p1 - p2], plus m1 when [p1 <= p2], which lies in
    [[1, m1]]: the draw is at least [2^-33] away from 0 and from 1. *)
Theorem core_step_exact (x1 x2 x3 y1 y2 y3 : Z) :
  uint32_state [x1; x2; x3; y1; y2; y3] ->
  let p1 := (mrga12 * x2 - mrga13n * x1) mod mrgm1 in
  let p2 := (mrga21 * y3 - mrga23n * y1) mod mrgm2 in
  let z := combination p1 p2 in
  1 <= z <= mrgm1 /\
  exists u : Q,
    mrg32k3a [x1; x2; x3; y1; y2; y3] =
      Return ([x2; x3; p1; y2; y3; p2], u) /\
    (1 # 8589934592 <= u <= 1 - (1 # 8589934592))%Q /\
    forall x : Q, Float.representable x ->
      (Qabs (u - inject_Z z * mrgnorm) <= Qabs (x - inject_Z z * mrgnorm))%Q.
Proof.
  intros Hu p1 p2 z. split.
  - apply combination_range; apply Z.mod_pos_bound; reflexivity.
  - exact (mrg32k3a_uint32 x1 x2 x3 y1 y2 y3 Hu).
Qed.

Lemma core_step_exact_witness :
  let x1 := 4294967295 in let x2 := 4294967087 in let x3 := 0 in
  let y1 := 4294944443 in let y2 := 1 in let y3 := 4294967295 in
  let p1 := (mrga12 * x2 - mrga13n * x1) mod mrgm1 in
  let p2 := (mrga21 * y3 - mrga23n * y1) mod mrgm2 in
  let z := combination p1 p2 in
  1 <= z <= mrgm1 /\
  exists u : Q,
    mrg32k3a [x1; x2; x3; y1; y2; y3] =
      Return ([x2; x3; p1; y2; y3; p2], u) /\
    (1 # 8589934592 <= u <= 1 - (1 # 8589934592))%Q /\
    forall x : Q, Float.representable x ->
      (Qabs (u - inject_Z z * mrgnorm) <= Qabs (x - inject_Z z * mrgnorm))%Q.
Proof.
  apply (core_step_exact 4294967295 4294967087 0 4294944443 1 4294967295).
  split; [reflexivity |].
  repeat constructor; discriminate.
Defined.

(** *** States out of range recover *)

Lemma next_state_uint32 (x1 x2 x3 y1 y2 y3 : Z) :
  uint32_state [x1; x2; x3; y1; y2; y3] ->
  next_state [x1; x2; x3; y1; y2; y3] =
    [x2; x3; (mrga12 * x2 - mrga13n * x1) mod mrgm1;
     y2; y3; (mrga21 * y3 - mrga23n * y1) mod mrgm2].
Proof.
  intros Hu. destruct (mrg32k3a_uint32 _ _ _ _ _ _ Hu) as (u & Hstep & _).
  unfold next_state. now rewrite Hstep.
Qed.

Lemma in_range_uint32 (x : Z) :
  in_range mrgm1 x \/ in_range mrgm2 x -> 0 <= x < 2 ^ 32.
Proof.
  unfold in_range, mrgm1, mrgm2. change (2 ^ 32) with 4294967296. lia.
Qed.

Lemma uint32_state_intro (a b c d e f : Z) :
  0 <= a < 2 ^ 32 -> 0 <= b < 2 ^ 32 -> 0 <= c < 2 ^ 32 ->
  0 <= d < 2 ^ 32 -> 0 <= e < 2 ^ 32 -> 0 <= f < 2 ^ 32 ->
  uint32_state [a; b; c; d; e; f].
Proof.
  intros. split; [reflexivity |].
  repeat (apply Forall_cons; [assumption |]). apply Forall_nil.
Qed.

Lemma three_steps_valid (s : list Z) :
  uint32_state s -> valid_state (Nat.iter 3 next_state s).
Proof.
  intros Hu. destruct (length6_inv s (proj1 Hu)) as (x1 & x2 & x3 & y1 & y2 & y3 & ->).
  pose proof (uint32_state_cons6 _ _ _ _ _ _ Hu) as ((Hx1 & Hx2 & Hx3) & Hy1 & Hy2 & Hy3).
  change (Nat.iter 3 next_state ?s) with (next_state (next_state (next_state s))).
  rewrite (next_state_uint32 x1) by exact Hu.
  set (p1 := (mrga12 * x2 - mrga13n * x1) mod mrgm1).
  set (p2 := (mrga21 * y3 - mrga23n * y1) mod mrgm2).
  assert (Hp1 : in_range mrgm1 p1) by (apply Z.mod_pos_bound; reflexivity).
  assert (Hp2 : in_range mrgm2 p2) by (apply Z.mod_pos_bound; reflexivity).
  rewrite (next_state_uint32 x2)
    by (apply uint32_state_intro; auto using in_range_uint32).
  set (q1 := (mrga12 * x3 - mrga13n * x2) mod mrgm1).
  set (q2 := (mrga21 * p2 - mrga23n * y2) mod mrgm2).
  assert (Hq1 : in_range mrgm1 q1) by (apply Z.mod_pos_bound; reflexivity).
  assert (Hq2 : in_range mrgm2 q2) by (apply Z.mod_pos_bound; reflexivity).
  rewrite (next_state_uint32 x3)
    by (apply uint32_state_intro; auto using in_range_uint32).
  apply valid_state_cons6. repeat split;
    solve [apply Hp1 | apply Hp2 | apply Hq1 | apply Hq2
           | apply Z.mod_pos_bound; reflexivity].
Qed.

Lemma next_state_keeps_uint32 (s : list Z) :
  uint32_state s -> uint32_state (next_state s).
Proof.
  intros Hu. destruct (length6_inv s (proj1 Hu)) as (x1 & x2 & x3 & y1 & y2 & y3 & ->).
  pose proof (uint32_state_cons6 _ _ _ _ _ _ Hu) as ((Hx1 & Hx2 & Hx3) & Hy1 & Hy2 & Hy3).
  rewrite next_state_uint32 by exact Hu.
  apply uint32_state_intro; try assumption;
    apply in_range_uint32; [left | right]; apply Z.mod_pos_bound; reflexivity.
Qed.

Lemma next_state_keeps_valid (s : list Z) :
  valid_state s -> valid_state (next_state s).
Proof. intros Hv. now apply next_state_is_base_jump. Qed.

Lemma draws_uint32 (n : nat) (rng : MRG32k3a) :
  uint32_state (_current_state rng) ->
  exists us : list Q,
    fst (draws n rng) = Return us /\ length us = n /\
    Forall (fun u => (0 < u < 1)%Q) us.
Proof.
  revert rng. induction n as [| n IH]; intros rng Hu.
  - exists []. repeat split. constructor.
  - rewrite draws_succ, random_run_any.
    pose proof (next_state_keeps_uint32 _ Hu) as Hn.
    destruct (length6_inv _ (proj1 Hu)) as (x1 & x2 & x3 & y1 & y2 & y3 & Hs).
    rewrite Hs in Hu, Hn.
    destruct (mrg32k3a_uint32 _ _ _ _ _ _ Hu) as (u & Hstep & (Hlo & Hhi) & _).
    unfold next_state in Hn. rewrite Hs, Hstep in *. cbn [fst snd] in *.
    match goal with
    | |- context [draws n ?r] => destruct (IH r Hn) as (us & Hd & Hl & Hf)
    end.
    match goal with
    | |- context [draws n ?r] => destruct (draws n r) as [[us' | e] rng'']
    end; cbn [fst] in Hd; [| discriminate].
    injection Hd as ->. exists (u :: us). cbn [fst length].
    split; [reflexivity |]. split; [now rewrite Hl |].
    constructor; [| exact Hf].
    assert ((0 < 1 # 8589934592)%Q) by reflexivity.
    assert ((1 - (1 # 8589934592) < 1)%Q) by reflexivity.
    split; lra.
Qed.

(** X13 (states out of range recover): a generator whose current state
    consists of six unsigned 32-bit integers, as [seed] and [setstate]
    accept them without a range check, still draws [n] values strictly
    between 0 and 1 without raising, and from the third draw on its
    current state is valid. *)
Theorem out_of_range_state_recovers (n : nat) (rng : MRG32k3a) :
  uint32_state (_current_state rng) ->
  (exists us : list Q,
     fst (draws n rng) = Return us /\ length us = n /\
     Forall (fun u => (0 < u < 1)%Q) us) /\
  ((3 <= n)%nat -> valid_state (_current_state (snd (draws n rng)))).
Proof.
  intros Hu. split; [now apply draws_uint32 |].
  intros Hn. rewrite draws_current_state.
  replace n with ((n - 3) + 3)%nat by lia.
  rewrite Nat.iter_add.
  pose proof (three_steps_valid _ Hu) as Hv.
  set (s3 := Nat.iter 3 next_state (_current_state rng)) in *. clearbody s3.
  induction (n - 3)%nat as [| k IH]; [exact Hv |].
  rewrite Nat.iter_succ. now apply next_state_keeps_valid.
Qed.

Lemma out_of_range_state_recovers_witness :
  let rng :=
    snd (seed [4294967295; 4294967087; 4294967295;
               4294944443; 4294967295; 4294967295]
              (snd (new default_ref_seed))) in
  (exists us : list Q,
     fst (draws 5 rng) = Return us /\ length us = 5%nat /\
     Forall (fun u => (0 < u < 1)%Q) us) /\
  ((3 <= 5)%nat -> valid_state (_current_state (snd (draws 5 rng)))).
Proof.
  apply (out_of_range_state_recovers 5
           (snd (seed [4294967295; 4294967087; 4294967295;
                       4294944443; 4294967295; 4294967295]
                      (snd (new default_ref_seed))))).
  split; [reflexivity |].
  repeat constructor; discriminate.
Defined.

(** *** The core step loses no information *)

Lemma coprime_cancel (a m x x' : Z) :
  Z.gcd a m = 1 -> 0 < m -> 0 <= x < m -> 0 <= x' < m ->
  (a * x) mod m = (a * x') mod m -> x = x'.
Proof.
  intros Hg Hm Hx Hx' He.
  assert (Hd : (m | a * (x - x'))).
  { apply Z.mod_divide; [lia |].
    rewrite Z.mul_sub_distr_l, Zminus_mod, He, Z.sub_diag. reflexivity. }
  apply Z.gauss in Hd; [| now rewrite Z.gcd_comm].
  assert (Hd' : (m | x' - x)) by (destruct Hd as [k Hk]; exists (- k); lia).
  apply Z.mod_divide in Hd, Hd'; [| lia | lia].
  destruct (Z.le_gt_cases x' x).
  - rewrite Z.mod_small in Hd by lia. lia.
  - rewrite Z.mod_small in Hd' by lia. lia.
Qed.

Lemma recurrence_injective (a b m x x' y : Z) :
  Z.gcd b m = 1 -> 0 < m -> 0 <= x < m -> 0 <= x' < m ->
  (a * y - b * x) mod m = (a * y - b * x') mod m -> x = x'.
Proof.
  intros Hg Hm Hx Hx' He.
  apply (coprime_cancel b m); try assumption.
  assert (E : forall t, (b * t) mod m = (a * y - (a * y - b * t) mod m) mod m).
  { intros t. rewrite Zminus_mod_idemp_r. f_equal. ring. }
  now rewrite (E x), (E x'), He.
Qed.

(** X14 (the core step is injective): two valid states from which
    [mrg32k3a] returns the same new state are the same state, so distinct
    valid states never merge under [random()]. *)
Theorem core_step_injective (s s' : list Z) (r r' : list Z * Q) :
  valid_state s -> valid_state s' ->
  mrg32k3a s = Return r -> mrg32k3a s' = Return r' ->
  fst r = fst r' -> s = s'.
Proof.
  intros Hv Hv' Hr Hr' E.
  destruct (valid_state_inv s Hv)
    as (x1 & x2 & x3 & y1 & y2 & y3 & -> & (Hx1 & Hx2 & Hx3) & Hy1 & Hy2 & Hy3).
  destruct (valid_state_inv s' Hv')
    as (a1 & a2 & a3 & b1 & b2 & b3 & -> & (Ha1 & Ha2 & Ha3) & Hb1 & Hb2 & Hb3).
  destruct (mrg32k3a_valid _ _ _ _ _ _ Hv) as (u & Hs & _).
  destruct (mrg32k3a_valid _ _ _ _ _ _ Hv') as (u' & Hs' & _).
  rewrite Hs in Hr. rewrite Hs' in Hr'.
  assert (Er : fst r = [x2; x3; (mrga12 * x2 - mrga13n * x1) mod mrgm1;
                       y2; y3; (mrga21 * y3 - mrga23n * y1) mod mrgm2])
    by (injection Hr as <-; reflexivity).
  assert (Er' : fst r' = [a2; a3; (mrga12 * a2 - mrga13n * a1) mod mrgm1;
                         b2; b3; (mrga21 * b3 - mrga23n * b1) mod mrgm2])
    by (injection Hr' as <-; reflexivity).
  rewrite Er, Er' in E. clear Hr Hr' Er Er' Hs Hs'.
  pose proof (f_equal (fun l => nth 0 l 0) E) as E0.
  pose proof (f_equal (fun l => nth 1 l 0) E) as E1.
  pose proof (f_equal (fun l => nth 2 l 0) E) as E2.
  pose proof (f_equal (fun l => nth 3 l 0) E) as E3.
  pose proof (f_equal (fun l => nth 4 l 0) E) as E4.
  pose proof (f_equal (fun l => nth 5 l 0) E) as E5.
  cbn [nth] in E0, E1, E2, E3, E4, E5. clear E. subst a2 a3 b2 b3.
  apply (recurrence_injective mrga12 mrga13n mrgm1 x1 a1 x2) in E2;
    [| reflexivity | reflexivity | exact Hx1 | exact Ha1].
  apply (recurrence_injective mrga21 mrga23n mrgm2 y1 b1 y3) in E5;
    [| reflexivity | reflexivity | exact Hy1 | exact Hb1].
  now subst.
Qed.

Lemma core_step_injective_witness :
  let s := [12345; 12345; 12345; 12345; 12345; 12345] in
  let r := ([12345; 12345; 3023790853; 12345; 12345; 2478282264],
            (4576057935366987 # 36028797018963968)%Q) in
  s = s.
Proof.
  exact (core_step_injective
           [12345; 12345; 12345; 12345; 12345; 12345]
           [12345; 12345; 12345; 12345; 12345; 12345]
           ([12345; 12345; 3023790853; 12345; 12345; 2478282264],
            (4576057935366987 # 36028797018963968)%Q)
           ([12345; 12345; 3023790853; 12345; 12345; 2478282264],
            (4576057935366987 # 36028797018963968)%Q)
           ltac:(apply valid_stateb_spec; reflexivity)
           ltac:(apply valid_stateb_spec; reflexivity)
           ltac:(vm_compute; reflexivity)
           ltac:(vm_compute; reflexivity)
           eq_refl).
Defined.

(** *** Replaying a subsubstream *)

Ltac lands :=
  intros [cur0 ref0 idx0 st0 sst0 ssst0];
  destruct idx0 as [| i0 [| i1 [| i2 idx0]]];
  unfold seed, assert, index_set, index_iadd, bind, ret, raise, modify, gets,
    lift, set_current_state, set_s_ss_sss_index, set_stream_start,
    set_substream_start, set_subsubstream_start;
  cbn [fst snd _current_state ref_seed s_ss_sss_index stream_start
       substream_start subsubstream_start getitem nth_error setitem obind];
  match goal with
  | |- context [Nat.eqb ?a 6] => destruct (Nat.eqb a 6) eqn:Hlen
  end;
  cbn [fst snd _current_state ref_seed s_ss_sss_index stream_start
       substream_start subsubstream_start getitem nth_error setitem obind];
  intros H; try discriminate H;
  (split; [reflexivity | now apply Nat.eqb_eq]).

Lemma reset_subsubstream_lands : lands_on_subsubstream_start reset_subsubstream.
Proof. unfold reset_subsubstream. lands. Qed.

Lemma reset_substream_lands : lands_on_subsubstream_start reset_substream.
Proof. unfold reset_substream. lands. Qed.

Lemma reset_stream_lands : lands_on_subsubstream_start reset_stream.
Proof. unfold reset_stream. lands. Qed.

Lemma advance_subsubstream_lands : lands_on_subsubstream_start advance_subsubstream.
Proof. unfold advance_subsubstream. lands. Qed.

Lemma advance_substream_lands : lands_on_subsubstream_start advance_substream.
Proof. unfold advance_substream. lands. Qed.

Lemma advance_stream_lands : lands_on_subsubstream_start advance_stream.
Proof. unfold advance_stream. lands. Qed.

Lemma start_fixed_lands (a b c : Z) :
  lands_on_subsubstream_start (start_fixed_s_ss_sss [a; b; c]).
Proof. unfold start_fixed_s_ss_sss. lands. Qed.

Lemma perform_lands (op : operation) :
  op <> Random -> lands_on_subsubstream_start (perform op).
Proof.
  intros Hop. destruct op; cbn [perform]; try contradiction.
  - apply advance_stream_lands.
  - apply advance_substream_lands.
  - apply advance_subsubstream_lands.
  - apply reset_stream_lands.
  - apply reset_substream_lands.
  - apply reset_subsubstream_lands.
  - apply start_fixed_lands.
Qed.

Lemma same_frame_same_state (r1 r2 : MRG32k3a) :
  same_frame r1 r2 -> _current_state r1 = _current_state r2 -> r1 = r2.
Proof.
  destruct r1, r2. unfold same_frame. cbn.
  intros (-> & -> & -> & -> & ->) ->. reflexivity.
Qed.

(** X15 (replaying a subsubstream): after an advance, a reset or
    [start_fixed_s_ss_sss] has returned, any number of [random()] calls
    followed by [reset_subsubstream()] puts the generator back exactly as
    that operation left it, so the calls made next return the same values
    again. *)
Theorem reset_subsubstream_replays_draws
        (op : operation) (n k : nat) (rng : MRG32k3a) :
  op <> Random ->
  fst (perform op rng) = Return tt ->
  let placed := snd (perform op rng) in
  let drawn := snd (draws n placed) in
  reset_subsubstream drawn = (Return tt, placed) /\
  fst (bind reset_subsubstream (fun _ => draws k) drawn) = fst (draws k placed).
Proof.
  intros Hop Hret placed drawn.
  destruct (perform_lands op Hop rng Hret) as [Hcur Hlen]. fold placed in Hcur, Hlen.
  pose proof (draws_frame n placed) as Hf. fold drawn in Hf.
  assert (E : reset_subsubstream drawn = (Return tt, placed)).
  { unfold reset_subsubstream, bind at 1, gets.
    destruct Hf as (F1 & F2 & F3 & F4 & F5).
    rewrite seed_ok by now rewrite F5.
    f_equal. apply same_frame_same_state.
    - apply same_frame_trans with drawn;
        [apply same_frame_set_current_state | repeat split; assumption].
    - cbn [set_current_state _current_state]. now rewrite F5. }
  split; [exact E |].
  unfold bind. now rewrite E.
Qed.

Lemma reset_subsubstream_replays_draws_witness :
  let rng := snd (new default_ref_seed) in
  let placed := snd (perform AdvanceSubstream rng) in
  let drawn := snd (draws 4 placed) in
  reset_subsubstream drawn = (Return tt, placed) /\
  fst (bind reset_subsubstream (fun _ => draws 3) drawn) = fst (draws 3 placed).
Proof.
  apply (reset_subsubstream_replays_draws AdvanceSubstream 4 3
           (snd (new default_ref_seed))).
  - discriminate.
  - vm_compute. reflexivity.
Defined.

(** *** The remaining jump matrices *)

(** X16 (the other five jump matrices): as the comments beside them say,
    A2p47 is A2p0 to the power 2^47 modulo m2, A1p94 and A2p94 are the
    base matrices to the power 2^94, and A1p141 and A2p141 to the power
    2^141, each modulo its own modulus; square-and-multiply and the plain
    iterated product agree on them. *)
Theorem other_jump_matrices_are_powers :
  (mat33_power_mod A2p0 (2 ^ 47) mrgm2 = A2p47 /\
   mat33_mod (mat33_power A2p0 (Pos.to_nat (2 ^ 47))) mrgm2 = A2p47) /\
  (mat33_power_mod A1p0 (2 ^ 94) mrgm1 = A1p94 /\
   mat33_mod (mat33_power A1p0 (Pos.to_nat (2 ^ 94))) mrgm1 = A1p94) /\
  (mat33_power_mod A2p0 (2 ^ 94) mrgm2 = A2p94 /\
   mat33_mod (mat33_power A2p0 (Pos.to_nat (2 ^ 94))) mrgm2 = A2p94) /\
  (mat33_power_mod A1p0 (2 ^ 141) mrgm1 = A1p141 /\
   mat33_mod (mat33_power A1p0 (Pos.to_nat (2 ^ 141))) mrgm1 = A1p141) /\
  (mat33_power_mod A2p0 (2 ^ 141) mrgm2 = A2p141 /\
   mat33_mod (mat33_power A2p0 (Pos.to_nat (2 ^ 141))) mrgm2 = A2p141).
Proof.
  destruct jump_matrices_are_powers as (_ & E2 & E3 & E4 & E5 & E6).
  split; [split; [vm_compute; reflexivity | symmetry; exact E2] |].
  split; [split; [vm_compute; reflexivity | symmetry; exact E3] |].
  split; [split; [vm_compute; reflexivity | symmetry; exact E4] |].
  split; [split; [vm_compute; reflexivity | symmetry; exact E5] |].
  split; [vm_compute; reflexivity | symmetry; exact E6].
Qed.

(** *** Construction followed by positioning *)

(** X17 (construction, then positioning): [MRG32k3a(ref_seed)] with a seed
    of length 6 returns a generator at triplet [0, 0, 0] whose three
    anchors and current state are the RefSeed; a call of
    [start_fixed_s_ss_sss] with a triplet [s, ss, sss] on it then derives
    stream_start from the RefSeed by s applications of the 2^141 jump,
    substream_start from stream_start by ss applications of the 2^94 jump,
    and subsubstream_start from substream_start by sss applications of the
    2^47 jump; the current state becomes subsubstream_start and the index
    the triplet. *)
Theorem construction_derives_anchors (seed0 : list Z) (s ss sss : Z) :
  length seed0 = 6%nat ->
  let s1 := Nat.iter (Z.to_nat s) (jump_state A1p141 A2p141) seed0 in
  let s2 := Nat.iter (Z.to_nat ss) (jump_state A1p94 A2p94) s1 in
  let s3 := Nat.iter (Z.to_nat sss) (jump_state A1p47 A2p47) s2 in
  new seed0 = (Return tt, mkMRG32k3a seed0 seed0 [0; 0; 0] seed0 seed0 seed0) /\
  start_fixed_s_ss_sss [s; ss; sss] (snd (new seed0)) =
    (Return tt, mkMRG32k3a s3 seed0 [s; ss; sss] s1 s2 s3).
Proof.
  intros Hl s1 s2 s3. rewrite new_run, Hl. cbn [Nat.eqb snd].
  split; [reflexivity |]. now rewrite start_fixed_run.
Qed.

Lemma construction_derives_anchors_witness :
  let seed0 := default_ref_seed in
  let s1 := Nat.iter (Z.to_nat 2) (jump_state A1p141 A2p141) seed0 in
  let s2 := Nat.iter (Z.to_nat 1) (jump_state A1p94 A2p94) s1 in
  let s3 := Nat.iter (Z.to_nat 0) (jump_state A1p47 A2p47) s2 in
  new seed0 = (Return tt, mkMRG32k3a seed0 seed0 [0; 0; 0] seed0 seed0 seed0) /\
  start_fixed_s_ss_sss [2; 1; 0] (snd (new seed0)) =
    (Return tt, mkMRG32k3a s3 seed0 [2; 1; 0] s1 s2 s3).
Proof.
  apply (construction_derives_anchors default_ref_seed 2 1 0). reflexivity.
Defined.
